(** * crt-search: common-name identities from a certificate-transparency log

    A shallow embedding of [crt-search.c] and the properties of its pipeline:
    domain validation, collection of the query rows, uniqueness, partition
    into wildcard and normal names, sorting, and the output to the standard
    output and to [<domain>_identities.txt].

    C strings are Rocq strings read the way libc reads them, up to the first
    NUL character; [cstring s] says that [s] holds no NUL, so that the whole
    of [s] is the C string.  The [int] values of the program are in [Z]; every
    counter of [main] is bounded by [MAX_IDENTITIES], far below [INT_MAX].
    The outside world (clock, file system, database) is an explicit record
    of answers, and what the program does to it is a trace of events. *)

From Stdlib Require Import ZArith Ascii String List Sorted Permutation.
From Stdlib Require Import DecimalString.
From stdpp Require Import gmap strings list.

Local Open Scope Z_scope.

(** ** Constants of the program *)

Definition MAX_DOMAIN_LEN : Z := 256.
Definition MAX_IDENTITY_LEN : Z := 1024.
Definition MAX_IDENTITIES : Z := 1000000.

(** The range of [int]. *)
Definition INT_MIN : Z := -2147483648.
Definition INT_MAX : Z := 2147483647.
Definition LOG_FILE : string := "script_errors.log".
Definition EXIT_FAILURE : Z := 1.

(** ** The C library, as far as the program uses it *)

Definition NUL : ascii := Ascii.zero.

(** The value of a character as [unsigned char]. *)
Definition uchar (c : ascii) : Z := Z.of_N (N_of_ascii c).

(** A Rocq string is a C string when no NUL occurs inside it. *)
Definition cstring (s : string) : Prop := NUL ∉ list_ascii_of_string s.

#[global] Instance cstring_dec s : Decision (cstring s).
Proof. unfold cstring. apply _. Defined.

(** [*p] and [p + 1] on a pointer into a string; the byte after the last
    character is the terminator. *)
Definition peek (s : string) : ascii :=
  match s with EmptyString => NUL | String c _ => c end.

Definition advance (s : string) : string :=
  match s with EmptyString => EmptyString | String _ r => r end.

(** The characters before the terminator: what [%s] prints and what
    [strdup] copies. *)
Fixpoint c_str (s : string) : string :=
  match s with
  | EmptyString => EmptyString
  | String c r => if decide (c = NUL) then EmptyString else String c (c_str r)
  end.

Definition strdup (s : string) : string := c_str s.

Fixpoint strlen (s : string) : nat :=
  match s with
  | EmptyString => 0%nat
  | String c r => if decide (c = NUL) then 0%nat else S (strlen r)
  end.

(** [strcmp]: the difference of the first two bytes that differ, compared as
    [unsigned char]; the program looks at the sign only. *)
Fixpoint strcmp (s1 s2 : string) : Z :=
  let c1 := peek s1 in
  let c2 := peek s2 in
  if decide (c1 = c2) then
    match s1 with
    | EmptyString => 0
    | String c r1 => if decide (c = NUL) then 0 else strcmp r1 (advance s2)
    end
  else uchar c1 - uchar c2.

Fixpoint strncmp (s1 s2 : string) (n : nat) : Z :=
  match n with
  | O => 0
  | S n' =>
      let c1 := peek s1 in
      let c2 := peek s2 in
      if decide (c1 = c2) then
        if decide (c1 = NUL) then 0 else strncmp (advance s1) (advance s2) n'
      else uchar c1 - uchar c2
  end.

(** [strpbrk]: the suffix of [s] starting at its first character that occurs
    in [accept], or [None] for the null pointer. *)
Fixpoint strpbrk (s accept : string) : option string :=
  match s with
  | EmptyString => None
  | String c r =>
      if decide (c = NUL) then None
      else if decide (c ∈ list_ascii_of_string (c_str accept)) then Some s
      else strpbrk r accept
  end.

(** [strrchr]: the offset of the last occurrence of [c], the terminator
    counting as part of the string; [None] for the null pointer. *)
Fixpoint strrchr (s : string) (c : ascii) : option nat :=
  match s with
  | EmptyString => if decide (c = NUL) then Some 0%nat else None
  | String a r =>
      if decide (a = NUL) then (if decide (c = NUL) then Some 0%nat else None)
      else match strrchr r c with
           | Some k => Some (S k)
           | None => if decide (a = c) then Some 0%nat else None
           end
  end.

(** [snprintf(buf, size, ...)] keeps at most [size - 1] characters of the
    formatted text. *)
Definition snprintf (size : nat) (formatted : string) : string :=
  substring 0 (size - 1) formatted.

(** *** POSIX regular expressions

    The program compiles one pattern, ["^[a-zA-Z0-9.-]*$"], with
    [REG_EXTENDED] and without [REG_NEWLINE], in the C locale (it never calls
    [setlocale]): a bracket expression of ranges and single characters,
    starred and anchored at both ends. *)

Inductive bracket_item : Type :=
| Range (lo hi : ascii)
| Single (c : ascii).

Definition item_matches (c : ascii) (it : bracket_item) : bool :=
  match it with
  | Range lo hi => (uchar lo <=? uchar c) && (uchar c <=? uchar hi)
  | Single d => bool_decide (c = d)
  end.

Definition bracket_matches (items : list bracket_item) (c : ascii) : bool :=
  existsb (item_matches c) items.

Definition REG_NOMATCH : Z := 1.

(** [regexec] for [^[items]*$]: 0 when every character of the subject is in
    the bracket expression, [REG_NOMATCH] otherwise. *)
Fixpoint regexec_star (items : list bracket_item) (s : string) : Z :=
  match s with
  | EmptyString => 0
  | String c r =>
      if decide (c = NUL) then 0
      else if bracket_matches items c then regexec_star items r
      else REG_NOMATCH
  end.

(** The bracket expression of the pattern in [validate_domain]. *)
Definition domain_bracket : list bracket_item :=
  [Range "a" "z"; Range "A" "Z"; Range "0" "9"; Single "."; Single "-"].

(** *** Broken-down time and [strftime] *)

Record tm : Type := mk_tm {
  tm_year : Z;   (* years since 1900 *)
  tm_mon : Z;    (* 0 .. 11 *)
  tm_mday : Z;   (* 1 .. 31 *)
  tm_hour : Z;   (* 0 .. 23 *)
  tm_min : Z;    (* 0 .. 59 *)
  tm_sec : Z     (* 0 .. 60 *)
}.

Definition decimal (n : Z) : string := NilZero.string_of_int (Z.to_int n).

(** Two digits, zero padded, as [%m %d %H %M %S] print them. *)
Definition pad2 (n : Z) : string :=
  if decide (0 <= n < 10) then "0" +:+ decimal n else decimal n.

(** The conversions of the format of [fatal_error].  The year is the exact
    sum [tm_year + 1900], which is what the library prints while that sum
    stays in the range of [int]. *)
Definition conversion (conv : ascii) (t : tm) : string :=
  if decide (conv = "Y"%char) then decimal (tm_year t + 1900)
  else if decide (conv = "m"%char) then pad2 (tm_mon t + 1)
  else if decide (conv = "d"%char) then pad2 (tm_mday t)
  else if decide (conv = "H"%char) then pad2 (tm_hour t)
  else if decide (conv = "M"%char) then pad2 (tm_min t)
  else if decide (conv = "S"%char) then pad2 (tm_sec t)
  else String "%" (String conv EmptyString).

Fixpoint strftime (fmt : string) (t : tm) : string :=
  match fmt with
  | EmptyString => EmptyString
  | String c rest =>
      match rest with
      | String conv rest' =>
          if decide (c = "%"%char) then conversion conv t +:+ strftime rest' t
          else String c (strftime rest t)
      | EmptyString => String c EmptyString
      end
  end.

(** The line feed that ends every line the program prints. *)
Definition LF : string := String "010" EmptyString.

(** ** The result pipeline of [main]

    Arrays filled from index 0 with a running count ([raw]/[raw_cnt],
    [unique]/[uniq_cnt], [wild]/[wild_cnt], [norm]/[norm_cnt]) are lists;
    [arr[cnt++] = x] appends [x].  Each [calloc] gives the array room for
    every element its loop can store. *)

(** *** Collect raw rows

    [rows] is column 0 of the result, row by row, as [PQgetvalue] returns
    it ([None] for a null pointer).  The loop runs while rows are left and
    [raw_cnt < cap]; [main] uses [cap = MAX_IDENTITIES]. *)
Definition has_value (val : option string) : option string :=
  match val with
  | Some s => if decide (peek s = NUL) then None else Some (strdup s)
  | None => None
  end.

Fixpoint collect_loop (cap : Z) (rows : list (option string))
    (raw : list string) : list string :=
  match rows with
  | [] => raw
  | val :: rest =>
      if decide (Z.of_nat (length raw) < cap) then
        collect_loop cap rest
          (match has_value val with Some s => raw ++ [s] | None => raw end)
      else raw
  end.

Definition collect (rows : list (option string)) : list string :=
  collect_loop MAX_IDENTITIES rows [].

(** *** Uniqueness (simple linear set) *)

(** The inner scan of [unique[0 .. uniq_cnt)], leaving at the first match. *)
Fixpoint scan_dup (s : string) (unique : list string) : bool :=
  match unique with
  | [] => false
  | u :: rest => if decide (strcmp s u = 0) then true else scan_dup s rest
  end.

Fixpoint uniqueness_loop (raw unique : list string) : list string :=
  match raw with
  | [] => unique
  | r :: rest =>
      uniqueness_loop rest (if scan_dup r unique then unique else unique ++ [r])
  end.

Definition uniqueness (raw : list string) : list string :=
  uniqueness_loop raw [].

(** *** Partition into wildcards / non-wildcards *)

Definition is_wildcard (s : string) : bool :=
  bool_decide (strncmp s "*." 2 = 0).

Fixpoint partition_loop (unique wild norm : list string)
    : list string * list string :=
  match unique with
  | [] => (wild, norm)
  | u :: rest =>
      if is_wildcard u then partition_loop rest (wild ++ [u]) norm
      else partition_loop rest wild (norm ++ [u])
  end.

Definition partition_wild (unique : list string)
    : list string * list string :=
  partition_loop unique [] [].

(** *** Sorting

    [for (k = lo; k < hi; ++k) body], for a body that leaves [k] and [hi]
    alone: [hi - lo] rounds when that is positive, none otherwise.  A body
    that reads outside its array has no defined behaviour: [None]. *)
Fixpoint for_loop {St : Type} (rounds : nat) (k : Z)
    (body : Z → St → option St) (s : St) : option St :=
  match rounds with
  | O => Some s
  | S rounds' =>
      match body k s with
      | Some s' => for_loop rounds' (k + 1) body s'
      | None => None
      end
  end.

Definition for_range {St : Type} (lo hi : Z) (body : Z → St → option St)
    (s : St) : option St :=
  for_loop (Z.to_nat (hi - lo)) lo body s.

(** [arr[i]] for an [int] index. *)
Definition at_index (arr : list string) (i : Z) : option string :=
  if decide (0 <= i) then arr !! Z.to_nat i else None.

(** The body of the inner loop of [bubble_sort]. *)
Definition swap_if_greater (i j : Z) (arr : list string)
    : option (list string) :=
  match at_index arr i, at_index arr j with
  | Some ai, Some aj =>
      if decide (strcmp ai aj > 0) then
        let tmp := ai in
        Some (<[Z.to_nat j := tmp]> (<[Z.to_nat i := aj]> arr))
      else Some arr
  | _, _ => None
  end.

(** The count [n] is an [int]; the bounds [n - 1], [i + 1] and the
    counters are computed exactly, as the program computes them for every
    count above [INT_MIN], where [n - 1] stays in range. *)
Definition bubble_sort (arr : list string) (n : Z) : option (list string) :=
  for_range 0 (n - 1)
    (λ i arr, for_range (i + 1) n (λ j arr, swap_if_greater i j arr) arr)
    arr.

(** ** The outside world and the trace of a run *)

Inductive stream : Type :=
| Stdout
| Stderr
| File (path : string).

#[global] Instance stream_eq_dec : EqDecision stream.
Proof. solve_decision. Defined.

(** What a run does, in the order in which it does it. *)
Inductive event : Type :=
| EvWrite (f : stream) (text : string)          (* printf, fprintf *)
| EvFopen (path mode : string) (ok : bool)
| EvFclose (path : string)
| EvStat (path : string)
| EvAccess (path : string)
| EvConnect (conninfo : string) (ok : bool)    (* PQconnectdb *)
| EvExecParams (sql : string) (params : list string)
| EvClear                                       (* PQclear *)
| EvFinish.                                     (* PQfinish *)

Inductive PGconn : Type :=
| CONNECTION_OK
| CONNECTION_BAD (errorMessage : string).

Inductive PGresult : Type :=
| PGRES_TUPLES_OK (column0 : list (option string))
| PGRES_OTHER (errorMessage : string).

(** The answers of the outside world to one run of the program. *)
Record world : Type := mk_world {
  localtime : tm;                                  (* localtime(time(NULL)) *)
  fopen_ok : string → string → bool;               (* path, mode *)
  regcomp_ok : bool;
  connect : nat → PGconn;                          (* n-th PQconnectdb *)
  exec_params : string → list string → PGresult;   (* sql, parameters *)
  stat_dir : string → option bool;                 (* None: stat fails; Some: S_ISDIR *)
  access_w : string → bool                         (* access(path, W_OK) == 0 *)
}.

(** How a computation ends: it returns, it leaves through [exit], or it has
    no defined behaviour. *)
Inductive outcome (A : Type) : Type :=
| Returns (a : A)
| Exits (status : Z)
| Undefined.
Arguments Returns {A} a.
Arguments Exits {A} status.
Arguments Undefined {A}.

(** A computation: the events it causes and how it ends. *)
Definition M (A : Type) : Type := list event * outcome A.

Definition M_ret {A} (a : A) : M A := ([], Returns a).

Definition M_bind {A B} (f : A → M B) (m : M A) : M B :=
  match m with
  | (tr, Returns a) => let '(tr', r) := f a in (tr ++ tr', r)
  | (tr, Exits st) => (tr, Exits st)
  | (tr, Undefined) => (tr, Undefined)
  end.

#[global] Instance M_mret : MRet M := @M_ret.
#[global] Instance M_mbind : MBind M := @M_bind.

Definition emit (e : event) : M unit := ([e], Returns tt).
Definition exit {A} (status : Z) : M A := ([], Exits status).
Definition defined {A} (r : option A) : M A :=
  match r with Some a => ([], Returns a) | None => ([], Undefined) end.

Definition trace {A} (m : M A) : list event := fst m.
Definition result {A} (m : M A) : outcome A := snd m.

(** The exit status of the process, for [main]. *)
Definition exit_status (m : M Z) : option Z :=
  match result m with
  | Returns st => Some st
  | Exits st => Some st
  | Undefined => None
  end.

(** The texts written to a stream, in order. *)
Definition writes_to (f : stream) (tr : list event) : list string :=
  omap (λ e, match e with
             | EvWrite g text => if decide (g = f) then Some text else None
             | _ => None
             end) tr.

Definition is_network (e : event) : bool :=
  match e with
  | EvConnect _ _ | EvExecParams _ _ | EvClear | EvFinish => true
  | _ => false
  end.

Definition is_file_io (e : event) : bool :=
  match e with
  | EvWrite (File _) _ | EvFopen _ _ _ | EvFclose _ | EvStat _ | EvAccess _ => true
  | _ => false
  end.

(** The path a file event is about. *)
Definition file_of (e : event) : option string :=
  match e with
  | EvWrite (File p) _ | EvFopen p _ _ | EvFclose p | EvStat p | EvAccess p => Some p
  | _ => None
  end.

(** *** The calls into the world *)

Definition fprintf (f : stream) (text : string) : M unit := emit (EvWrite f text).
Definition printf (text : string) : M unit := fprintf Stdout text.

Definition fopen (w : world) (path mode : string) : M bool :=
  let ok := fopen_ok w (c_str path) (c_str mode) in
  emit (EvFopen (c_str path) (c_str mode) ok) ;; mret ok.

Definition fclose (path : string) : M unit := emit (EvFclose path).

Definition stat (w : world) (path : string) : M (option bool) :=
  emit (EvStat (c_str path)) ;; mret (stat_dir w (c_str path)).

Definition access (w : world) (path : string) : M bool :=
  emit (EvAccess (c_str path)) ;; mret (access_w w (c_str path)).

(** [PQstatus(conn) == CONNECTION_OK] *)
Definition connection_ok (conn : PGconn) : bool :=
  match conn with CONNECTION_OK => true | CONNECTION_BAD _ => false end.

Definition PQconnectdb (w : world) (nth : nat) (conninfo : string) : M PGconn :=
  let conn := connect w nth in
  emit (EvConnect conninfo (connection_ok conn)) ;; mret conn.

Definition PQexecParams (w : world) (sql : string) (paramValues : list string)
    : M PGresult :=
  emit (EvExecParams sql (c_str <$> paramValues)) ;;
  mret (exec_params w sql (c_str <$> paramValues)).

Definition PQclear : M unit := emit EvClear.
Definition PQfinish : M unit := emit EvFinish.

(** [if (cond) stmt] *)
Definition when (cond : bool) (stmt : M unit) : M unit :=
  if cond then stmt else mret tt.

(** ** The program *)

(** The text of one log entry, as both [fprintf] calls of [fatal_error]
    format it; [ts[64]] has room for the time stamp of any [int] year. *)
Definition error_entry (ts msg : string) : string :=
  "[" +:+ c_str ts +:+ "] ERROR: " +:+ c_str msg +:+ LF.

(** Simple fatal-error helper: writes to stderr and [LOG_FILE], then
    leaves the process; it never returns. *)
Definition fatal_error {A} (w : world) (msg : string) : M A :=
  let tm_info := localtime w in
  let ts := strftime "%Y-%m-%d %H:%M:%S" tm_info in
  fprintf Stderr (error_entry ts msg) ;;
  log ← fopen w LOG_FILE "a";
  when log (fprintf (File LOG_FILE) (error_entry ts msg) ;; fclose LOG_FILE) ;;
  exit EXIT_FAILURE.

(** The characters [strpbrk] looks for: quote, double quote, semicolon,
    backtick. *)
Definition dangerous : string :=
  String "'" (String "034" (String ";" (String "`" EmptyString))).

(** Domain validation: length, allowed chars, no dangerous chars. *)
Definition validate_domain (w : world) (domain : string) : M Z :=
  let len := strlen domain in
  when (bool_decide (len = 0 ∨ 255 < len)%nat)
    (fatal_error w "Domain length must be 1-255 characters") ;;
  when (bool_decide (strpbrk domain dangerous ≠ None))
    (let buf := snprintf 512
       ("Domain '" +:+ c_str domain +:+
        "' contains invalid characters (quotes, semicolon, backtick)") in
     fatal_error w buf) ;;
  when (negb (regcomp_ok w)) (fatal_error w "Regex compilation failed") ;;
  let rc := regexec_star domain_bracket domain in
  when (bool_decide (rc ≠ 0))
    (let buf := snprintf 512
       ("Domain '" +:+ c_str domain +:+
        "' must contain only alphanumeric, dot or hyphen") in
     fatal_error w buf) ;;
  mret 1.

Definition conninfo : string :=
  "host=crt.sh port=5432 user=guest dbname=certwatch " +:+
  "sslmode=require connect_timeout=10".

(** Test that we can reach the DB: the first connection of the run. *)
Definition check_connectivity (w : world) : M Z :=
  conn ← PQconnectdb w 0 conninfo;
  match conn with
  | CONNECTION_OK => mret tt
  | CONNECTION_BAD errorMessage => fatal_error w errorMessage
  end ;;
  PQfinish ;;
  mret 1.

(** Make sure the directory for the output file is writable. *)
Definition check_output_directory (w : world) (output_file : string) : M unit :=
  match strrchr output_file "/" with
  | Some slash =>
      let dir := substring 0 slash output_file in      (* *slash = '\0' *)
      st ← stat w dir;
      writable ← match st with
                 | Some true => access w dir
                 | _ => mret false
                 end;
      when (negb writable) (fatal_error w "Output directory is not writable")
  | None => mret tt
  end.

Definition sql : string :=
  "SELECT cai.NAME_VALUE " +:+
  "FROM certificate_and_identities cai " +:+
  "WHERE plainto_tsquery('certwatch', $1) @@ identities(cai.CERTIFICATE) " +:+
  "  AND cai.NAME_VALUE ILIKE '%' || $1 || '%' " +:+
  "  AND cai.NAME_TYPE = '2.5.4.3' " +:+
  "LIMIT 1000000;".

(** Connect and run the parameterised query: the second connection. *)
Definition run_query (w : world) (domain : string) : M (list (option string)) :=
  conn ← PQconnectdb w 1 conninfo;
  match conn with
  | CONNECTION_OK => mret tt
  | CONNECTION_BAD errorMessage => fatal_error w errorMessage
  end ;;
  let paramValues := [domain] in
  res ← PQexecParams w sql paramValues;
  match res with
  | PGRES_TUPLES_OK column0 => mret column0
  | PGRES_OTHER errorMessage => fatal_error w errorMessage
  end.

(** Uniqueness, partition and the two sorts; [None] only if a sort left
    its array. *)
Definition process (raw : list string) : option (list string * list string) :=
  let unique := uniqueness raw in
  let '(wild, norm) := partition_wild unique in
  let wild_cnt := Z.of_nat (length wild) in
  let norm_cnt := Z.of_nat (length norm) in
  wild' ← bubble_sort wild wild_cnt;
  norm' ← bubble_sort norm norm_cnt;
  Some (wild', norm').

(** One output loop: each identity to stdout and to the file. *)
Fixpoint print_loop (output_file : string) (arr : list string) : M unit :=
  match arr with
  | [] => mret tt
  | s :: rest =>
      printf (c_str s +:+ LF) ;;
      fprintf (File output_file) (c_str s +:+ LF) ;;
      print_loop output_file rest
  end.

(** Output to stdout + file. *)
Definition write_output (w : world) (output_file : string)
    (wild norm : list string) : M unit :=
  out ← fopen w output_file "w";
  when (negb out) (fatal_error w "Cannot create output file") ;;
  print_loop (c_str output_file) wild ;;
  print_loop (c_str output_file) norm ;;
  fclose (c_str output_file) ;;
  printf ("Output saved to " +:+ c_str output_file +:+ LF).

(** [argc] is the length of [argv]; [output_file] has room for
    [MAX_DOMAIN_LEN + 20] = 276 bytes.  With [argc] = 0 the usage line
    prints a null [argv[0]], shown the way glibc prints it. *)
Definition main (w : world) (argv : list string) : M Z :=
  match argv with
  | [_; domain] =>                                      (* argc == 2 *)
      let output_file := snprintf 276 (c_str domain +:+ "_identities.txt") in
      validate_domain w domain ;;
      check_connectivity w ;;
      check_output_directory w output_file ;;
      column0 ← run_query w domain;
      let raw := collect column0 in
      PQclear ;;
      PQfinish ;;
      '(wild, norm) ← defined (process raw);
      write_output w output_file wild norm ;;
      mret 0
  | _ =>
      fprintf Stderr ("Usage: " +:+ c_str (hd "(null)" argv) +:+ " <domain>" +:+ LF) ;;
      mret EXIT_FAILURE
  end.

(** ** Specification-level notions *)

(** The order of the sort: [a] is not greater than [b] under [strcmp]. *)
Definition str_le (a b : string) : Prop := strcmp a b <= 0.

(** The literal prefix of a wildcard identity. *)
Definition has_prefix (p s : string) : Prop := ∃ t, s = p +:+ t.

(** One round of the outer loop of the uniqueness step. *)
Definition keep_new (unique : list string) (s : string) : list string :=
  if scan_dup s unique then unique else unique ++ [s].

#[global] Instance has_prefix_dec p s : Decision (has_prefix p s).
Proof.
  revert s. induction p as [|a p IH]; intros s.
  - left. by exists s.
  - destruct s as [|b s].
    + right. by intros [t Ht].
    + destruct (decide (a = b)) as [->|Hne].
      * destruct (IH s) as [Hp|Hn].
        -- left. destruct Hp as [t ->]. by exists t.
        -- right. intros [t [= ->]]. apply Hn. by exists t.
      * right. intros [t [= ? ?]]. done.
Defined.

(** The loop invariants of [bubble_sort], on an array [a] sorted up to [n].
    [settled i n a]: every entry before [i] is not greater than any later
    entry before [n].  [least i j a]: the entry at [i] is not greater than
    any entry between [i] and [j]. *)
Definition settled (i n : nat) (a : list string) : Prop :=
  ∀ p q x y, (p < i)%nat → (p < q < n)%nat →
    a !! p = Some x → a !! q = Some y → str_le x y.

Definition least (i j : nat) (a : list string) : Prop :=
  ∀ q x y, (i < q < j)%nat → a !! i = Some x → a !! q = Some y → str_le x y.

(** [a] is a rearrangement of [arr] that moved nothing from [n] onwards. *)
Definition rearranged (n : nat) (a arr : list string) : Prop :=
  length a = length arr ∧ a ≡ₚ arr ∧ ∀ q, (n ≤ q)%nat → a !! q = arr !! q.

(** The rule of the domain argument, in the words of the data model: 1 to
    255 characters, each a letter, a digit, a dot or a hyphen. *)
Definition allowed_char (c : ascii) : Prop :=
  let n := uchar c in
  97 <= n <= 122 ∨ 65 <= n <= 90 ∨ 48 <= n <= 57 ∨ n = 46 ∨ n = 45.

Definition valid_domain (d : string) : Prop :=
  (1 ≤ String.length d ≤ 255)%nat ∧
  ∀ c, c ∈ list_ascii_of_string d → allowed_char c.

(** The non-null, non-empty values of the returned column, in row order. *)
Definition non_empty_values (rows : list (option string)) : list string :=
  filter (λ s, s ≠ EmptyString) (omap id rows).

(** The time stamp of a run, as [fatal_error] formats it. *)
Definition timestamp (w : world) : string :=
  strftime "%Y-%m-%d %H:%M:%S" (localtime w).

(** The events of one call of [fatal_error]. *)
Definition fatal_trace (w : world) (msg : string) : list event :=
  let entry := error_entry (timestamp w) msg in
  EvWrite Stderr entry ::
  EvFopen LOG_FILE "a" (fopen_ok w LOG_FILE "a") ::
  (if fopen_ok w LOG_FILE "a"
   then [EvWrite (File LOG_FILE) entry; EvFclose LOG_FILE] else []).

(** A computation that, when it leaves through [exit], does so at the end
    of a call of [fatal_error]; when it returns, its value satisfies [post];
    and that never runs into undefined behaviour. *)
Definition fails_fatally {A} (w : world) (post : A → Prop) (m : M A) : Prop :=
  match result m with
  | Returns a => post a
  | Exits st => st = EXIT_FAILURE ∧ ∃ pre msg, trace m = pre ++ fatal_trace w msg
  | Undefined => False
  end.

(** Every event of a computation satisfies [Q]. *)
Definition all_events {A} (Q : event → Prop) (m : M A) : Prop :=
  Forall Q (trace m).

(** The run [m] reports the fatal error [msg]: it leaves with
    [EXIT_FAILURE] at the end of a call of [fatal_error] on [msg]; the
    standard error holds the entry of [msg] and nothing else; the log was
    sent that entry when it opened for appending and nothing when it did
    not. *)
Definition reported (w : world) (msg : string) (m : M Z) : Prop :=
  result m = Exits EXIT_FAILURE ∧
  (∃ pre, trace m = pre ++ fatal_trace w msg) ∧
  writes_to Stderr (trace m) = [error_entry (timestamp w) msg] ∧
  writes_to (File LOG_FILE) (trace m) =
    (if fopen_ok w LOG_FILE "a" then [error_entry (timestamp w) msg] else []).

(** The messages of [validate_domain] for the domain [d], in the order of
    its checks. *)
Definition validation_errors (d : string) : list string :=
  ["Domain length must be 1-255 characters";
   "Domain '" +:+ d +:+
     "' contains invalid characters (quotes, semicolon, backtick)";
   "Regex compilation failed";
   "Domain '" +:+ d +:+ "' must contain only alphanumeric, dot or hyphen"].

(** A calendar time of four-digit years, and the shape of its time stamp:
    [d] stands for a decimal digit, any other character for itself. *)
Definition calendar (t : tm) : Prop :=
  1000 <= tm_year t + 1900 <= 9999 ∧ 0 <= tm_mon t <= 11 ∧
  1 <= tm_mday t <= 31 ∧ 0 <= tm_hour t <= 23 ∧
  0 <= tm_min t <= 59 ∧ 0 <= tm_sec t <= 60.

Definition is_digit (c : ascii) : bool := (48 <=? uchar c) && (uchar c <=? 57).

Fixpoint has_shape (shape s : string) : bool :=
  match shape, s with
  | EmptyString, EmptyString => true
  | String p shape', String c s' =>
      (if decide (p = "d"%char) then is_digit c else bool_decide (c = p))
      && has_shape shape' s'
  | _, _ => false
  end.

(** The lines of the identities, as the output loops print them. *)
Definition lines (ids : list string) : list string := (λ s, s +:+ LF) <$> ids.

(** The name of the output file of a domain. *)
Definition output_path (domain : string) : string := domain +:+ "_identities.txt".

(** The world lets the run of [domain] reach the result [column0]: the
    pattern compiles, both connections are made and the query succeeds. *)
Definition query_returns (w : world) (domain : string)
    (column0 : list (option string)) : Prop :=
  regcomp_ok w = true ∧
  connect w 0 = CONNECTION_OK ∧ connect w 1 = CONNECTION_OK ∧
  exec_params w sql [domain] = PGRES_TUPLES_OK column0.

(** The events of the output loops. *)
Definition print_events (output_file : string) (ids : list string) : list event :=
  ids ≫= λ s, [EvWrite Stdout (c_str s +:+ LF);
               EvWrite (File output_file) (c_str s +:+ LF)].

(** The events of the directory check, which a run of a valid domain never
    causes. *)
Definition is_directory_check (e : event) : bool :=
  match e with EvStat _ | EvAccess _ => true | _ => false end.

(** Sample worlds for concrete runs: the files that open are those of
    [opens], every connection is made, and the query returns [column0]. *)
Definition sample_world (opens : string → bool)
    (column0 : list (option string)) : world :=
  {| localtime := mk_tm 126 9 30 7 5 0;
     fopen_ok := λ path _, opens path;
     regcomp_ok := true;
     connect := λ _, CONNECTION_OK;
     exec_params := λ _ _, PGRES_TUPLES_OK column0;
     stat_dir := λ _, None;
     access_w := λ _, false |}.

(** The rows of the end-to-end example. *)
Definition example_rows : list (option string) :=
  [Some "*.b.com"; Some "a.com"; Some "a.com"; Some "*.a.com"; Some "b.com"].

(** What a run of the domain [d] may do about files outside the log: no
    directory check, and no file created but the output file of [d]. *)
Definition output_in_cwd (d : string) (e : event) : Prop :=
  is_directory_check e = false ∧
  ∀ p ok, e = EvFopen p "w" ok → p = output_path d.

(** No contact with the database, and no file touched but the error log. *)
Definition offline (e : event) : Prop :=
  is_network e = false ∧ ∀ p, file_of e = Some p → p = LOG_FILE.

(** The events of a run up to the point where the output is written: the
    probe, the query connection, the query, and the release of both. *)
Definition database_events (d : string) : list event :=
  [EvConnect conninfo true; EvFinish;
   EvConnect conninfo true; EvExecParams sql [d]; EvClear; EvFinish].

(** The runs of [main] on a domain argument, one shape per way to end. *)
Inductive run_shape (w : world) (d : string) : M Z → Prop :=
| run_rejected msg :
    run_shape w d (fatal_trace w msg, Exits EXIT_FAILURE)
| run_unreachable msg :
    run_shape w d
      ([EvConnect conninfo false] ++ fatal_trace w msg, Exits EXIT_FAILURE)
| run_refused msg :
    run_shape w d
      ([EvConnect conninfo true; EvFinish; EvConnect conninfo false] ++
       fatal_trace w msg, Exits EXIT_FAILURE)
| run_query_failed msg :
    connect w 1 = CONNECTION_OK → exec_params w sql [d] = PGRES_OTHER msg →
    run_shape w d
      ([EvConnect conninfo true; EvFinish;
        EvConnect conninfo true; EvExecParams sql [d]] ++
       fatal_trace w msg, Exits EXIT_FAILURE)
| run_not_created :
    run_shape w d
      (database_events d ++ [EvFopen (output_path d) "w" false] ++
       fatal_trace w "Cannot create output file", Exits EXIT_FAILURE)
| run_succeeded wild norm :
    Forall cstring wild → Forall cstring norm →
    run_shape w d
      (database_events d ++ [EvFopen (output_path d) "w" true] ++
       print_events (output_path d) wild ++
       print_events (output_path d) norm ++
       [EvFclose (output_path d);
        EvWrite Stdout ("Output saved to " +:+ output_path d +:+ LF)],
       Returns 0).

(** The files open after the events [tr], given those open before; and the
    number of database connections open after [tr]. *)
Fixpoint files_open (opened : list string) (tr : list event) : list string :=
  match tr with
  | [] => opened
  | EvFopen p _ true :: rest => files_open (p :: opened) rest
  | EvFclose p :: rest => files_open (filter (λ q, q ≠ p) opened) rest
  | _ :: rest => files_open opened rest
  end.

Fixpoint connections_open (n : nat) (tr : list event) : nat :=
  match tr with
  | [] => n
  | EvConnect _ true :: rest => connections_open (S n) rest
  | EvFinish :: rest => connections_open (pred n) rest
  | _ :: rest => connections_open n rest
  end.

(** An event that creates or truncates a file. *)
Definition is_create (e : event) : bool :=
  match e with
  | EvFopen _ mode _ => bool_decide (mode = "w")
  | _ => false
  end.

(** The queries a run sends: the text and the parameters of each. *)
Definition queries_of (tr : list event) : list (string * list string) :=
  omap (λ e, match e with
             | EvExecParams text params => Some (text, params)
             | _ => None
             end) tr.

(** ** Facts about C strings *)

Lemma uchar_inj (c1 c2 : ascii) : uchar c1 = uchar c2 → c1 = c2.
Proof.
  unfold uchar. intros H.
  rewrite <-(ascii_N_embedding c1), <-(ascii_N_embedding c2).
  f_equal. lia.
Qed.

Lemma uchar_ne (c1 c2 : ascii) : c1 ≠ c2 → uchar c1 ≠ uchar c2.
Proof. intros H ?%uchar_inj. done. Qed.

Lemma uchar_NUL : uchar NUL = 0.
Proof. reflexivity. Qed.

Lemma uchar_nonneg (c : ascii) : 0 <= uchar c.
Proof. unfold uchar. lia. Qed.


(** Decidable facts about concrete inputs. *)
Ltac by_computation :=
  lazymatch goal with
  | |- ?P => apply (bool_decide_unpack P); vm_compute; exact I
  end.

Ltac use_uchar_ne :=
  repeat match goal with
         | H : _ ≠ _ |- _ => apply uchar_ne in H
         end.

Section cstrings.
Implicit Types (s a b : string) (c : ascii).

Lemma cstring_empty : cstring EmptyString.
Proof. unfold cstring. simpl. apply not_elem_of_nil. Qed.

Lemma cstring_String c s : cstring (String c s) ↔ c ≠ NUL ∧ cstring s.
Proof.
  unfold cstring. simpl. rewrite not_elem_of_cons. intuition congruence.
Qed.

Lemma c_str_cstring s : cstring (c_str s).
Proof.
  induction s as [|c r IH]; simpl; [apply cstring_empty|].
  case_decide; [apply cstring_empty|]. by apply cstring_String.
Qed.

Lemma c_str_id s : cstring s → c_str s = s.
Proof.
  induction s as [|c r IH]; simpl; [done|].
  intros [Hc Hr]%cstring_String. case_decide; [done|]. by rewrite IH.
Qed.

Lemma c_str_idemp s : c_str (c_str s) = c_str s.
Proof. apply c_str_id, c_str_cstring. Qed.

Lemma strlen_c_str s : strlen s = String.length (c_str s).
Proof.
  induction s as [|c r IH]; simpl; [done|]. case_decide; simpl; congruence.
Qed.

Lemma strlen_cstring s : cstring s → strlen s = String.length s.
Proof. intros H. by rewrite strlen_c_str, c_str_id. Qed.

Lemma cstring_app a b : cstring a → cstring b → cstring (a +:+ b).
Proof.
  induction a as [|c r IH]; simpl; [done|].
  intros [Hc Hr]%cstring_String Hb. apply cstring_String. auto.
Qed.

(** One step of [strcmp], on the two pointers. *)
Lemma strcmp_unfold a b :
  strcmp a b =
    if decide (peek a = peek b) then
      if decide (peek a = NUL) then 0 else strcmp (advance a) (advance b)
    else uchar (peek a) - uchar (peek b).
Proof.
  by destruct a.
Qed.

Lemma strcmp_opp a b : strcmp b a = - strcmp a b.
Proof.
  revert b. induction a as [|c r IH]; intros b.
  - rewrite (strcmp_unfold b), (strcmp_unfold EmptyString). simpl.
    repeat case_decide; try congruence; lia.
  - rewrite (strcmp_unfold b), (strcmp_unfold (String c r)). simpl.
    repeat case_decide; try congruence; try lia; apply IH.
Qed.

Lemma strcmp_trans a b s : str_le a b → str_le b s → str_le a s.
Proof.
  unfold str_le. revert b s. induction a as [|x r IH]; intros b d.
  - intros _ _. rewrite strcmp_unfold. simpl.
    case_decide; [done|]. pose proof (uchar_nonneg (peek d)).
    rewrite uchar_NUL. lia.
  - rewrite (strcmp_unfold (String x r) b), (strcmp_unfold b d),
      (strcmp_unfold (String x r) d). simpl.
    repeat case_decide; subst; try congruence; try (by apply IH);
      intros; use_uchar_ne; lia.
Qed.

Lemma strcmp_total a b : ¬ strcmp a b > 0 → str_le a b.
Proof. unfold str_le. lia. Qed.

(** [strcmp] is 0 exactly on equal C strings. *)
Lemma strcmp_0_c_str a b : strcmp a b = 0 ↔ c_str a = c_str b.
Proof.
  revert b. induction a as [|x r IH]; intros [|y q]; simpl;
    repeat case_decide; subst; try done;
    try (split; [intros; use_uchar_ne; rewrite ?uchar_NUL in *; lia
                | congruence]).
  rewrite IH. split; [congruence|]. by intros [= ?].
Qed.

Lemma strcmp_0_eq a b : cstring a → cstring b → strcmp a b = 0 ↔ a = b.
Proof. intros Ha Hb. by rewrite strcmp_0_c_str, !c_str_id. Qed.

End cstrings.

(** ** Uniqueness *)

Section uniqueness.
Implicit Types (raw unique l : list string) (s x y : string).

Lemma scan_dup_true s unique :
  scan_dup s unique = true ↔ ∃ u, u ∈ unique ∧ strcmp s u = 0.
Proof.
  induction unique as [|u rest IH]; simpl.
  - split; [done|]. intros (u & Hu & _). by apply elem_of_nil in Hu.
  - case_decide as Hcmp.
    + split; [|done]. intros _. exists u. split; [left|done].
    + rewrite IH. split.
      * intros (v & Hv & H0). exists v. split; [by right|done].
      * intros (v & [->|Hv]%elem_of_cons & H0); [done|]. by exists v.
Qed.

Lemma scan_dup_elem_of s unique :
  cstring s → Forall cstring unique →
  scan_dup s unique = true ↔ s ∈ unique.
Proof.
  intros Hs Hall. rewrite scan_dup_true. rewrite Forall_forall in Hall.
  split.
  - intros (u & Hu & H0). apply strcmp_0_eq in H0; [by subst|done|auto].
  - intros Hin. exists s. split; [done|]. by apply strcmp_0_eq.
Qed.

Lemma uniqueness_loop_snoc raw s unique :
  uniqueness_loop (raw ++ [s]) unique =
    keep_new (uniqueness_loop raw unique) s.
Proof.
  revert unique. induction raw as [|r rest IH]; intros unique; simpl; [done|].
  apply IH.
Qed.

Lemma uniqueness_snoc raw s :
  uniqueness (raw ++ [s]) = keep_new (uniqueness raw) s.
Proof. apply uniqueness_loop_snoc. Qed.

Lemma uniqueness_subset raw x : x ∈ uniqueness raw → x ∈ raw.
Proof.
  revert x. induction raw as [|s raw IH] using rev_ind; intros x.
  - done.
  - rewrite uniqueness_snoc. unfold keep_new.
    destruct (scan_dup s (uniqueness raw)).
    + intros ?%IH. apply elem_of_app. by left.
    + rewrite !elem_of_app. intros [?%IH|?]; auto.
Qed.

Lemma uniqueness_cstring raw :
  Forall cstring raw → Forall cstring (uniqueness raw).
Proof.
  rewrite !Forall_forall. intros H x Hx%uniqueness_subset. auto.
Qed.

Lemma uniqueness_elem_of raw x :
  Forall cstring raw → x ∈ uniqueness raw ↔ x ∈ raw.
Proof.
  revert x. induction raw as [|s raw IH] using rev_ind; intros x Hall; [done|].
  apply Forall_app in Hall as [Hraw [Hs _]%Forall_cons].
  rewrite uniqueness_snoc. unfold keep_new.
  destruct (scan_dup s (uniqueness raw)) eqn:Hdup.
  - apply scan_dup_elem_of in Hdup; [|done|by apply uniqueness_cstring].
    rewrite elem_of_app, list_elem_of_singleton, IH by done.
    split; [auto|]. intros [?| ->]; [done|]. by apply IH.
  - rewrite !elem_of_app, IH by done. done.
Qed.

Lemma uniqueness_NoDup raw : Forall cstring raw → NoDup (uniqueness raw).
Proof.
  induction raw as [|s raw IH] using rev_ind; intros Hall.
  - constructor.
  - apply Forall_app in Hall as [Hraw [Hs _]%Forall_cons].
    rewrite uniqueness_snoc. unfold keep_new.
    destruct (scan_dup s (uniqueness raw)) eqn:Hdup; [auto|].
    apply NoDup_app. split_and!; [auto| |apply NoDup_singleton].
    intros x Hx ->%list_elem_of_singleton.
    apply (scan_dup_elem_of s) in Hx; [congruence|done|].
    by apply uniqueness_cstring.
Qed.

(** Where [x] stands before [y] in the result, the first [x] of the input
    comes before every [y] of the input. *)
Lemma uniqueness_order raw o1 x o2 y o3 :
  Forall cstring raw →
  uniqueness raw = o1 ++ x :: o2 ++ y :: o3 →
  ∃ l1 l2, raw = l1 ++ x :: l2 ∧ (x ∉ l1) ∧ (y ∉ l1).
Proof.
  revert o1 x o2 y o3.
  induction raw as [|s raw IH] using rev_ind; intros o1 x o2 y o3 Hall Heq.
  - by destruct o1.
  - apply Forall_app in Hall as [Hraw [Hs _]%Forall_cons].
    rewrite uniqueness_snoc in Heq. unfold keep_new in Heq.
    destruct (scan_dup s (uniqueness raw)) eqn:Hdup.
    + destruct (IH _ _ _ _ _ Hraw Heq) as (l1 & l2 & -> & Hx & Hy).
      exists l1, (l2 ++ [s]). by rewrite <-app_assoc.
    + destruct o3 as [|z o3 _] using rev_ind.
      * replace (o1 ++ x :: o2 ++ [y]) with ((o1 ++ x :: o2) ++ [y]) in Heq
          by (by rewrite <-app_assoc).
        apply app_inj_tail in Heq as [Heq ->].
        assert (x ∈ raw) as Hxin.
        { apply uniqueness_elem_of; [done|]. rewrite Heq.
          apply elem_of_app. right. left. }
        assert (y ∉ raw) as Hyout.
        { intros Hin. apply (uniqueness_elem_of raw y Hraw) in Hin.
          apply (scan_dup_elem_of y) in Hin; [congruence|done|].
          by apply uniqueness_cstring. }
        apply list_elem_of_split_l in Hxin as (l1 & l2 & -> & Hx).
        exists l1, (l2 ++ [y]). rewrite <-app_assoc. split_and!; [done..|].
        intros Hin. apply Hyout, elem_of_app. by left.
      * replace (o1 ++ x :: o2 ++ y :: o3 ++ [z])
          with ((o1 ++ x :: o2 ++ y :: o3) ++ [z]) in Heq
          by (by rewrite <-!app_assoc, !app_comm_cons, <-!app_assoc).
        apply app_inj_tail in Heq as [Heq ->].
        destruct (IH _ _ _ _ _ Hraw Heq) as (l1 & l2 & -> & Hx & Hy).
        exists l1, (l2 ++ [z]). by rewrite <-app_assoc.
Qed.

End uniqueness.

(** C1. For a raw sequence of identity strings, the uniqueness step of
    [main] yields a sequence without repetition that holds exactly the
    values of the input, in the order of their first occurrences (when [x]
    stands before [y] in the result, the first [x] of the input comes before
    any [y]), and as many entries as the input has distinct values. *)
Theorem uniqueness_first_occurrences (raw : list string) :
  Forall cstring raw →
  NoDup (uniqueness raw) ∧
  (∀ x, x ∈ uniqueness raw ↔ x ∈ raw) ∧
  (∀ o1 x o2 y o3, uniqueness raw = o1 ++ x :: o2 ++ y :: o3 →
     ∃ l1 l2, raw = l1 ++ x :: l2 ∧ (x ∉ l1) ∧ (y ∉ l1)) ∧
  length (uniqueness raw) = size (list_to_set raw : gset string).
Proof.
  intros Hall. split_and!.
  - by apply uniqueness_NoDup.
  - intros x. by apply uniqueness_elem_of.
  - intros o1 x o2 y o3. by apply uniqueness_order.
  - rewrite <-(size_list_to_set (C := gset string)) by (by apply uniqueness_NoDup).
    f_equal. apply set_eq. intros x.
    rewrite !elem_of_list_to_set. by apply uniqueness_elem_of.
Qed.

Lemma uniqueness_first_occurrences_witness :
  let raw := ["*.b.com"; "a.com"; "a.com"; "*.a.com"; "b.com"] in
  Forall cstring raw ∧
  uniqueness raw = ["*.b.com"; "a.com"; "*.a.com"; "b.com"] ∧
  length (uniqueness raw) = size (list_to_set raw : gset string).
Proof.
  split; [by_computation|].
  split; [reflexivity|].
  apply (uniqueness_first_occurrences
           ["*.b.com"; "a.com"; "a.com"; "*.a.com"; "b.com"]).
  by_computation.
Defined.

(** ** Partition *)

Section partition.
Implicit Types (unique wild norm : list string) (s : string).

Lemma is_wildcard_prefix s : is_wildcard s = true ↔ has_prefix "*." s.
Proof.
  unfold is_wildcard. rewrite bool_decide_eq_true.
  destruct s as [|a [|b r]]; simpl.
  - split; [done|]. intros [t Ht]. by inversion Ht.
  - case_decide as Ha; [subst; simpl|].
    + split; [done|]. intros [t Ht]. by inversion Ht.
    + split.
      * intros H. apply uchar_ne in Ha. lia.
      * intros [t Ht]. by inversion Ht.
  - case_decide as Ha; [subst; simpl|].
    + case_decide as Hb; [subst|].
      * split; [|done]. intros _. by exists r.
      * split.
        -- intros H. apply uchar_ne in Hb. lia.
        -- intros [t Ht]. by inversion Ht.
    + split.
      * intros H. apply uchar_ne in Ha. lia.
      * intros [t Ht]. by inversion Ht.
Qed.

Lemma partition_loop_filter unique wild norm :
  partition_loop unique wild norm =
    (wild ++ filter (has_prefix "*.") unique,
     norm ++ filter (λ s, ¬ has_prefix "*." s) unique).
Proof.
  revert wild norm. induction unique as [|u rest IH]; intros wild norm; simpl.
  - by rewrite !app_nil_r.
  - destruct (is_wildcard u) eqn:Hw; rewrite IH.
    + apply is_wildcard_prefix in Hw.
      rewrite filter_cons_True, filter_cons_False by tauto.
      by rewrite <-app_assoc.
    + assert (¬ has_prefix "*." u) as Hn.
      { intros H%is_wildcard_prefix. congruence. }
      rewrite filter_cons_False, filter_cons_True by done.
      by rewrite <-app_assoc.
Qed.

End partition.

(** C2. The partition step puts exactly the identities that start with the
    two characters [*.] into the wildcard partition and all the others into
    the normal one, each partition in the order of the sequence it was given,
    and the two partitions together hold the values of that sequence. *)
Theorem partition_wild_correct (unique : list string) :
  partition_wild unique =
    (filter (has_prefix "*.") unique,
     filter (λ s, ¬ has_prefix "*." s) unique) ∧
  (list_to_set (partition_wild unique).1 ∪ list_to_set (partition_wild unique).2
     : gset string) = list_to_set unique.
Proof.
  assert (partition_wild unique =
    (filter (has_prefix "*.") unique,
     filter (λ s, ¬ has_prefix "*." s) unique)) as Heq.
  { unfold partition_wild. by rewrite partition_loop_filter. }
  split; [done|]. rewrite Heq. simpl. apply set_eq. intros x.
  rewrite elem_of_union, !elem_of_list_to_set, !list_elem_of_filter.
  destruct (decide (has_prefix "*." x)); tauto.
Qed.

(** ** Loops with an invariant *)

Section loops.
Context {St : Type} (P : Z → St → Prop) (body : Z → St → option St).

Lemma for_loop_inv rounds k s :
  P k s →
  (∀ j t, k <= j < k + Z.of_nat rounds → P j t →
     ∃ t', body j t = Some t' ∧ P (j + 1) t') →
  ∃ s', for_loop rounds k body s = Some s' ∧ P (k + Z.of_nat rounds) s'.
Proof.
  revert k s. induction rounds as [|rounds IH]; intros k s Hk Hstep.
  - exists s. simpl. by rewrite Z.add_0_r.
  - simpl. destruct (Hstep k s) as (t & -> & Ht); [lia|done|].
    destruct (IH (k + 1) t) as (s' & Hloop & Hs'); [done| |].
    + intros j u Hj Hu. apply Hstep; [lia|done].
    + exists s'. split; [done|].
      by replace (k + Z.of_nat (S rounds)) with (k + 1 + Z.of_nat rounds) by lia.
Qed.

Lemma for_range_inv lo hi s :
  lo <= hi → P lo s →
  (∀ j t, lo <= j < hi → P j t → ∃ t', body j t = Some t' ∧ P (j + 1) t') →
  ∃ s', for_range lo hi body s = Some s' ∧ P hi s'.
Proof.
  intros Hle Hlo Hstep. unfold for_range.
  destruct (for_loop_inv (Z.to_nat (hi - lo)) lo s) as (s' & Hloop & Hs');
    [done| |].
  - intros j t Hj. apply Hstep. lia.
  - exists s'. split; [done|].
    by replace (lo + Z.of_nat (Z.to_nat (hi - lo))) with hi in Hs' by lia.
Qed.

Lemma for_range_empty lo hi s : hi <= lo → for_range lo hi body s = Some s.
Proof.
  intros Hle. unfold for_range.
  by replace (Z.to_nat (hi - lo)) with 0%nat by lia.
Qed.

End loops.

(** ** Sorting *)

Section sorting.
Implicit Types (arr a : list string) (i j n : nat).

Lemma at_index_nat a i : at_index a (Z.of_nat i) = a !! i.
Proof.
  unfold at_index. rewrite decide_True by lia. by rewrite Nat2Z.id.
Qed.

Lemma rearranged_refl n arr : rearranged n arr arr.
Proof. by split_and!. Qed.

Lemma rearranged_trans n a1 a2 a3 :
  rearranged n a1 a2 → rearranged n a2 a3 → rearranged n a1 a3.
Proof.
  intros (Hl1 & Hp1 & Hq1) (Hl2 & Hp2 & Hq2). split_and!.
  - congruence.
  - by etrans.
  - intros q Hq. rewrite Hq1, Hq2; done.
Qed.

(** The exchange of two entries before [n]. *)
Lemma rearranged_swap n a i j x y :
  (i < n)%nat → (j < n)%nat → a !! i = Some x → a !! j = Some y →
  rearranged n (<[j:=x]> (<[i:=y]> a)) a.
Proof.
  intros Hi Hj Hx Hy. split_and!.
  - by rewrite !length_insert.
  - by apply Permutation_insert_swap.
  - intros q Hq. rewrite !list_lookup_insert_ne by lia. done.
Qed.

Lemma lookup_swap a i j x y q :
  i ≠ j → a !! i = Some x → a !! j = Some y →
  <[j:=x]> (<[i:=y]> a) !! q =
    if decide (q = j) then Some x
    else if decide (q = i) then Some y else a !! q.
Proof.
  intros Hne Hx Hy.
  apply lookup_lt_Some in Hx as Hi. apply lookup_lt_Some in Hy as Hj.
  repeat case_decide; subst.
  - rewrite list_lookup_insert_eq; [done|]. by rewrite length_insert.
  - rewrite list_lookup_insert_ne by done. by rewrite list_lookup_insert_eq.
  - by rewrite !list_lookup_insert_ne.
Qed.

(** One round of the inner loop keeps the invariants and extends [least]. *)
Lemma swap_if_greater_step n arr a i j :
  (i < j < n)%nat → (n ≤ length arr)%nat →
  rearranged n a arr → settled i n a → least i j a →
  ∃ a', swap_if_greater (Z.of_nat i) (Z.of_nat j) a = Some a' ∧
        rearranged n a' arr ∧ settled i n a' ∧ least i (S j) a'.
Proof.
  intros Hij Hn Hre Hset Hleast.
  destruct Hre as (Hlen & Hperm & Hrest).
  destruct (lookup_lt_is_Some_2 a i) as [x Hx]; [lia|].
  destruct (lookup_lt_is_Some_2 a j) as [y Hy]; [lia|].
  unfold swap_if_greater. rewrite !at_index_nat, Hx, Hy, !Nat2Z.id.
  case_decide as Hgt.
  - eexists. split; [done|]. split_and!.
    + apply (rearranged_trans _ _ a); [|done].
      apply rearranged_swap; [lia..|done|done].
    + intros p q u v Hp Hq.
      rewrite !(lookup_swap a i j x y) by (done || lia).
      rewrite (decide_False (P := p = j)), (decide_False (P := p = i)) by lia.
      intros Hu. repeat case_decide; subst.
      * intros [= <-]. apply (Hset p i u x); [lia..|done|done].
      * intros [= <-]. apply (Hset p j u y); [lia..|done|done].
      * intros Hv. by apply (Hset p q u v).
    + intros q u v Hq.
      rewrite !(lookup_swap a i j x y) by (done || lia).
      rewrite (decide_False (P := i = j)), (decide_True (P := i = i)) by lia.
      intros [= <-]. assert (str_le y x) as Hyx.
      { unfold str_le. rewrite (strcmp_opp x y). lia. }
      repeat case_decide; subst; try lia.
      * by intros [= <-].
      * intros Hv. apply (strcmp_trans _ x); [done|].
        apply (Hleast q x v); [lia|done..].
  - exists a. split; [done|]. split_and!; [done..|].
    intros q u v Hq Hu Hv. destruct (decide (q = j)) as [->|Hne].
    + rewrite Hx in Hu. rewrite Hy in Hv. simplify_eq.
      by apply strcmp_total.
    + apply (Hleast q u v); [lia|done..].
Qed.

(** The inner loop settles position [i]. *)
Lemma inner_loop_settles n arr a i :
  (i < n)%nat → (n ≤ length arr)%nat →
  rearranged n a arr → settled i n a →
  ∃ a', for_range (Z.of_nat i + 1) (Z.of_nat n)
          (λ (j : Z) a, swap_if_greater (Z.of_nat i) j a) a = Some a' ∧
        rearranged n a' arr ∧ settled (S i) n a'.
Proof.
  intros Hi Hn Hre Hset.
  destruct (for_range_inv
    (λ (j : Z) a, rearranged n a arr ∧ settled i n a ∧ least i (Z.to_nat j) a)
    (λ (j : Z) a, swap_if_greater (Z.of_nat i) j a)
    (Z.of_nat i + 1) (Z.of_nat n) a) as (a' & Hloop & Hre' & Hset' & Hleast').
  - lia.
  - split_and!; [done..|]. intros q x y Hq. lia.
  - intros j t Hj (Hre1 & Hset1 & Hleast1).
    destruct (swap_if_greater_step n arr t i (Z.to_nat j))
      as (t' & Hswap & ? & ? & ?); [lia|done..|].
    exists t'. rewrite Z2Nat.id in Hswap by lia. split; [done|].
    split_and!; [done..|]. by replace (Z.to_nat (j + 1)) with (S (Z.to_nat j)) by lia.
  - exists a'. split; [done|]. split; [done|].
    rewrite Nat2Z.id in Hleast'.
    intros p q x y Hp Hq Hx Hy. destruct (decide (p = i)) as [->|Hne].
    + by apply (Hleast' q x y).
    + apply (Hset' p q x y); [lia|done..].
Qed.

Lemma settled_sorted n a :
  (n ≤ length a)%nat → settled (n - 1) n a →
  StronglySorted str_le (take n a).
Proof.
  intros Hn Hset.
  assert (∀ l : list string,
    (∀ p q x y, (p < q)%nat → l !! p = Some x → l !! q = Some y → str_le x y) →
    StronglySorted str_le l) as Hsorted.
  { induction l as [|h l IH]; intros Hl; constructor.
    - apply IH. intros p q x y Hpq Hx Hy. by apply (Hl (S p) (S q)); [lia|..].
    - apply Forall_forall. intros y [q Hq]%list_elem_of_lookup.
      by apply (Hl 0%nat (S q) h y); [lia|..]. }
  apply Hsorted. intros p q x y Hpq Hx Hy.
  apply lookup_lt_Some in Hy as Hq. rewrite length_take in Hq.
  rewrite lookup_take_lt in Hx by lia. rewrite lookup_take_lt in Hy by lia.
  apply (Hset p q x y); [lia..|done|done].
Qed.

Lemma rearranged_take_drop n a arr :
  rearranged n a arr →
  take n a ≡ₚ take n arr ∧ drop n a = drop n arr.
Proof.
  intros (Hlen & Hperm & Hrest).
  assert (drop n a = drop n arr) as Hdrop.
  { apply list_eq. intros q. rewrite !lookup_drop. apply Hrest. lia. }
  split; [|done]. apply Permutation_app_inv_r with (l := drop n a).
  rewrite take_drop, Hdrop, take_drop. done.
Qed.

(** The outer loop, for a count within the array. *)
Lemma bubble_sort_settles arr n :
  (n ≤ length arr)%nat →
  ∃ a, bubble_sort arr (Z.of_nat n) = Some a ∧
       rearranged n a arr ∧ settled (n - 1) n a.
Proof.
  intros Hn. unfold bubble_sort.
  destruct (decide (n = 0)%nat) as [->|Hpos].
  { exists arr. rewrite for_range_empty by lia. split; [done|].
    split; [apply rearranged_refl|]. intros p q x y Hp. lia. }
  destruct (for_range_inv
    (λ (i : Z) a, rearranged n a arr ∧ settled (Z.to_nat i) n a)
    (λ (i : Z) a, for_range (i + 1) (Z.of_nat n) (λ (j : Z) a, swap_if_greater i j a) a)
    0 (Z.of_nat n - 1) arr) as (a & Hloop & Hre & Hset).
  - lia.
  - split; [apply rearranged_refl|]. intros p q x y Hp. lia.
  - intros i t Hi (Hre & Hset).
    destruct (inner_loop_settles n arr t (Z.to_nat i))
      as (t' & Hinner & ? & ?); [lia|done..|].
    exists t'. rewrite Z2Nat.id in Hinner by lia. split; [done|].
    split; [done|]. by replace (Z.to_nat (i + 1)) with (S (Z.to_nat i)) by lia.
  - exists a. split; [done|]. split; [done|].
    by replace (n - 1)%nat with (Z.to_nat (Z.of_nat n - 1)) by lia.
Qed.

End sorting.

(** On C strings the sign of [strcmp] is the lexicographic comparison of
    the character codes. *)
Lemma strcmp_compare (a b : string) :
  cstring a → cstring b → (strcmp a b ?= 0) = String.compare a b.
Proof.
  revert b. induction a as [|x r IH]; intros [|y q] Ha Hb; simpl.
  - done.
  - apply cstring_String in Hb as [Hy _]. rewrite decide_False by done.
    apply uchar_ne in Hy. pose proof (uchar_nonneg y).
    rewrite uchar_NUL in *. apply Z.compare_lt_iff. lia.
  - apply cstring_String in Ha as [Hx _]. rewrite decide_False by done.
    apply uchar_ne in Hx. pose proof (uchar_nonneg x).
    rewrite uchar_NUL in *. apply Z.compare_gt_iff. lia.
  - apply cstring_String in Ha as [Hx Hr]. apply cstring_String in Hb as [Hy Hq].
    unfold Ascii.compare. case_decide as Hxy.
    + subst. rewrite N.compare_refl, decide_False by done. by apply IH.
    + apply uchar_ne in Hxy. unfold uchar in *.
      destruct (N.compare_spec (N_of_ascii x) (N_of_ascii y)) as [Heq|Hlt|Hgt].
      * rewrite Heq in Hxy. done.
      * apply Z.compare_lt_iff. lia.
      * apply Z.compare_gt_iff. lia.
Qed.

(** C3. For an array of strings and a count [n] within it, [bubble_sort]
    returns the array with its first [n] entries rearranged (a permutation
    of them, the rest untouched) into non-decreasing order under [strcmp],
    which on C strings is the byte-wise lexicographic comparison; sorting a
    whole partition gives a sorted permutation of the partition. *)
Theorem bubble_sort_correct (arr : list string) (n : Z) :
  n <= Z.of_nat (length arr) →
  ∃ sorted,
    bubble_sort arr n = Some sorted ∧
    take (Z.to_nat n) sorted ≡ₚ take (Z.to_nat n) arr ∧
    drop (Z.to_nat n) sorted = drop (Z.to_nat n) arr ∧
    StronglySorted str_le (take (Z.to_nat n) sorted) ∧
    (Forall cstring arr →
     StronglySorted (λ a b, String.compare a b ≠ Gt) (take (Z.to_nat n) sorted)) ∧
    (n = Z.of_nat (length arr) → sorted ≡ₚ arr ∧ StronglySorted str_le sorted).
Proof.
  intros Hn. destruct (decide (n < 0)) as [Hneg|Hpos].
  { exists arr. unfold bubble_sort. rewrite for_range_empty by lia.
    replace (Z.to_nat n) with 0%nat by lia. simpl.
    split_and!; [done|done|done|constructor|intros; constructor|intros ->; lia]. }
  destruct (bubble_sort_settles arr (Z.to_nat n)) as (a & Hsort & Hre & Hset);
    [lia|].
  rewrite Z2Nat.id in Hsort by lia. exists a.
  destruct (rearranged_take_drop _ _ _ Hre) as [Htake Hdrop].
  assert (StronglySorted str_le (take (Z.to_nat n) a)) as Hsorted.
  { apply settled_sorted; [|done]. destruct Hre as (-> & _). lia. }
  split_and!; try done.
  - intros Hall.
    assert (Forall cstring (take (Z.to_nat n) a)) as Hc.
    { rewrite Htake. by apply Forall_take. }
    clear -Hsorted Hc. induction Hsorted as [|x l Hl IH Hx]; constructor.
    + apply IH. by apply Forall_cons in Hc as [_ ?].
    + apply Forall_cons in Hc as [Hcx Hcl].
      rewrite Forall_forall in Hx, Hcl |- *. intros y Hy.
      rewrite <-strcmp_compare by auto. specialize (Hx y Hy).
      unfold str_le in Hx. intros Hgt%Z.compare_gt_iff. lia.
  - intros ->. rewrite Nat2Z.id in *.
    destruct Hre as (Hlen & ? & _).
    rewrite take_ge in Hsorted by lia. done.
Qed.

Lemma bubble_sort_correct_witness :
  3 <= Z.of_nat (length ["b.com"; "c.com"; "a.com"; "0"]) ∧
  bubble_sort ["b.com"; "c.com"; "a.com"; "0"] 3 =
    Some ["a.com"; "b.com"; "c.com"; "0"] ∧
  ∃ sorted,
    bubble_sort ["b.com"; "c.com"; "a.com"; "0"] 3 = Some sorted ∧
    StronglySorted str_le (take 3 sorted).
Proof.
  split; [simpl; lia|]. split; [reflexivity|].
  destruct (bubble_sort_correct ["b.com"; "c.com"; "a.com"; "0"] 3)
    as (sorted & Hrun & _ & _ & Hsorted & _); [simpl; lia|].
  exists sorted. split; [exact Hrun|exact Hsorted].
Defined.

(** ** Running computations *)

Section running.
Context {A B : Type}.
Implicit Types (m : M A) (f : A → M B) (tr : list event).

Lemma bind_returns tr a f :
  (tr, Returns a) ≫= f = (tr ++ trace (f a), result (f a)).
Proof. unfold mbind, M_mbind, M_bind. by destruct (f a). Qed.

Lemma ret_bind a f : mret a ≫= f = f a.
Proof.
  unfold mret, M_mret, M_ret, mbind, M_mbind, M_bind. by destruct (f a).
Qed.

Lemma bind_exits tr st f : (tr, Exits st) ≫= f = (tr, Exits st).
Proof. done. Qed.

Lemma bind_undefined tr f : (tr, Undefined) ≫= f = (tr, Undefined).
Proof. done. Qed.

Lemma bind_run m f a tr :
  m = (tr, Returns a) → m ≫= f = (tr ++ trace (f a), result (f a)).
Proof. intros ->. apply bind_returns. Qed.

Lemma bind_stop m f st tr :
  m = (tr, Exits st) → m ≫= f = (tr, Exits st).
Proof. by intros ->. Qed.

Lemma all_events_bind (Q : event → Prop) m f :
  all_events Q m → (∀ a, all_events Q (f a)) → all_events Q (m ≫= f).
Proof.
  unfold all_events. destruct m as [tr [a|st|]]; intros Hm Hf.
  - rewrite bind_returns. apply Forall_app. split; [done|apply Hf].
  - done.
  - done.
Qed.

Lemma fails_fatally_bind w (post : A → Prop) (post' : B → Prop) m f :
  fails_fatally w post m →
  (∀ a, post a → fails_fatally w post' (f a)) →
  fails_fatally w post' (m ≫= f).
Proof.
  unfold fails_fatally. destruct m as [tr [a|st|]]; intros Hm Hf.
  - rewrite bind_returns. specialize (Hf a Hm). simpl in *.
    destruct (result (f a)); [done| |done].
    destruct Hf as (-> & pre & msg & ->). split; [done|].
    exists (tr ++ pre), msg. by rewrite <-app_assoc.
  - done.
  - done.
Qed.

End running.

Lemma trace_ret {A} (a : A) : trace (mret a) = [].
Proof. done. Qed.

Lemma result_ret {A} (a : A) : result (mret a : M A) = Returns a.
Proof. done. Qed.

Lemma emit_bind {B} (e : event) (f : () → M B) :
  emit e ≫= f = (e :: trace (f ()), result (f ())).
Proof. unfold emit. by rewrite bind_returns. Qed.

(** Runs a computation whose steps are known. *)
Ltac mrun :=
  repeat first
    [ rewrite emit_bind | rewrite ret_bind | rewrite bind_returns
    | rewrite bind_exits | rewrite trace_ret | rewrite result_ret
    | progress cbn [trace result fst snd negb when emit app] ].

Lemma pair_eta {A} (m : M A) : m = (trace m, result m).
Proof. by destruct m. Qed.

Lemma fatal_error_run {A} (w : world) (msg : string) :
  @fatal_error A w msg = (fatal_trace w msg, Exits EXIT_FAILURE).
Proof.
  unfold fatal_error, fatal_trace, fopen, timestamp.
  change (c_str LOG_FILE) with LOG_FILE. change (c_str "a") with "a".
  by destruct (fopen_ok w LOG_FILE "a").
Qed.

Lemma fatal_bind {A B} (w : world) (msg : string) (f : A → M B) :
  fatal_error w msg ≫= f = (fatal_trace w msg, Exits EXIT_FAILURE).
Proof. by rewrite fatal_error_run, bind_exits. Qed.

Lemma fatal_error_fails {A} (w : world) (post : A → Prop) (msg : string) :
  fails_fatally w post (fatal_error w msg).
Proof.
  rewrite fatal_error_run. split; [done|]. by exists [], msg.
Qed.

Lemma returning_fails_fatally {A} (w : world) (post : A → Prop) tr a :
  post a → fails_fatally w post (tr, Returns a).
Proof. done. Qed.

Lemma when_fatal_fails (w : world) (cond : bool) (msg : string) :
  fails_fatally w (λ _, True) (when cond (fatal_error w msg)).
Proof. destruct cond; [apply fatal_error_fails|done]. Qed.

(** ** Validation *)

Section validation.
Implicit Types (d : string) (c : ascii) (w : world).

Lemma bracket_matches_allowed c :
  bracket_matches domain_bracket c = true ↔ allowed_char c.
Proof.
  unfold bracket_matches, domain_bracket, allowed_char. simpl.
  rewrite !orb_true_iff, !andb_true_iff, !Z.leb_le, !bool_decide_eq_true.
  change (uchar "a") with 97. change (uchar "z") with 122.
  change (uchar "A") with 65. change (uchar "Z") with 90.
  change (uchar "0") with 48. change (uchar "9") with 57.
  assert (c = "."%char ↔ uchar c = 46) as ->.
  { split; [by intros ->|]. intros H. by apply uchar_inj. }
  assert (c = "-"%char ↔ uchar c = 45) as ->.
  { split; [by intros ->|]. intros H. by apply uchar_inj. }
  intuition lia.
Qed.

Lemma regexec_star_allowed d :
  cstring d →
  regexec_star domain_bracket d = 0 ↔
  ∀ c, c ∈ list_ascii_of_string d → allowed_char c.
Proof.
  induction d as [|a r IH]; cbn [regexec_star list_ascii_of_string].
  - intros _. split; [|done]. intros _ c Hc. by apply elem_of_nil in Hc.
  - intros [Ha Hr]%cstring_String. rewrite decide_False by done.
    destruct (bracket_matches domain_bracket a) eqn:Hm.
    + rewrite IH by done. apply bracket_matches_allowed in Hm. split.
      * intros H c [->|Hc]%elem_of_cons; auto.
      * intros H c Hc. apply H. by right.
    + split; [done|]. intros H. exfalso.
      assert (allowed_char a) as Hal by (apply H; left).
      apply bracket_matches_allowed in Hal. congruence.
Qed.

Lemma strpbrk_dangerous d :
  (∀ c, c ∈ list_ascii_of_string d → allowed_char c) →
  strpbrk d dangerous = None.
Proof.
  induction d as [|a r IH]; simpl; [done|]. intros H.
  case_decide; [done|]. rewrite decide_False.
  - apply IH. intros c Hc. apply H. by right.
  - assert (allowed_char a) as Hal by (apply H; left).
    unfold allowed_char in Hal. simpl in Hal.
    rewrite !elem_of_cons. intros [->|[->|[->|[->|Hn]]]];
      [vm_compute in Hal; intuition congruence..|].
    by apply elem_of_nil in Hn.
Qed.

(** A valid domain passes, provided the pattern compiles. *)
Lemma validate_domain_accepts w d :
  cstring d → valid_domain d → regcomp_ok w = true →
  validate_domain w d = ([], Returns 1).
Proof.
  intros Hc [Hlen Hchars] Hre. unfold validate_domain.
  rewrite strlen_cstring by done.
  rewrite (bool_decide_eq_false_2
             (String.length d = 0%nat ∨ (255 < String.length d)%nat)) by lia.
  rewrite strpbrk_dangerous by done.
  rewrite (bool_decide_eq_false_2 (@None string ≠ None))
    by (intros H; by apply H).
  rewrite Hre. cbn [negb]. unfold when. rewrite !ret_bind.
  rewrite (proj2 (regexec_star_allowed d Hc)) by done.
  rewrite (bool_decide_eq_false_2 (0 ≠ 0)) by lia. by rewrite ret_bind.
Qed.

(** Whatever the domain, validation returns 1 without a trace or ends in
    [fatal_error]. *)
Lemma validate_domain_run w d :
  validate_domain w d = ([], Returns 1) ∨
  ∃ msg, validate_domain w d = (fatal_trace w msg, Exits EXIT_FAILURE).
Proof.
  unfold validate_domain, when.
  destruct (bool_decide (strlen d = 0 ∨ 255 < strlen d)%nat);
    [right; eexists; apply fatal_bind|].
  rewrite ret_bind.
  destruct (bool_decide (strpbrk d dangerous ≠ None));
    [right; eexists; apply fatal_bind|].
  rewrite ret_bind.
  destruct (regcomp_ok w); cbn [negb];
    [|right; eexists; apply fatal_bind].
  rewrite ret_bind.
  destruct (bool_decide (regexec_star domain_bracket d ≠ 0));
    [right; eexists; apply fatal_bind|].
  rewrite ret_bind. by left.
Qed.

(** Only valid domains pass. *)
Lemma validate_domain_returns w d tr a :
  cstring d → validate_domain w d = (tr, Returns a) → valid_domain d.
Proof.
  intros Hc. unfold validate_domain, when.
  rewrite strlen_cstring by done.
  destruct (bool_decide (String.length d = 0 ∨ 255 < String.length d)%nat)
    eqn:Hlen; [by rewrite fatal_bind|].
  rewrite ret_bind.
  destruct (bool_decide (strpbrk d dangerous ≠ None));
    [by rewrite fatal_bind|].
  rewrite ret_bind.
  destruct (regcomp_ok w); cbn [negb];
    [|by rewrite fatal_bind].
  rewrite ret_bind.
  destruct (bool_decide (regexec_star domain_bracket d ≠ 0)) eqn:Hrc;
    [by rewrite fatal_bind|].
  intros _. apply bool_decide_eq_false in Hlen, Hrc.
  split; [lia|]. apply regexec_star_allowed; [done|].
  by destruct (decide (regexec_star domain_bracket d = 0)).
Qed.

Lemma validate_domain_rejects w d :
  cstring d → ¬ valid_domain d →
  ∃ msg, validate_domain w d = (fatal_trace w msg, Exits EXIT_FAILURE).
Proof.
  intros Hc Hinv. destruct (validate_domain_run w d) as [Hret|Hexit]; [|done].
  by apply validate_domain_returns in Hret.
Qed.

End validation.

(** ** Collecting the rows *)

Section collecting.
Implicit Types (rows : list (option string)) (raw : list string).

Lemma collect_loop_take cap rows raw :
  collect_loop cap rows raw =
    raw ++ take (Z.to_nat (cap - Z.of_nat (length raw))) (omap has_value rows).
Proof.
  revert raw. induction rows as [|val rest IH]; intros raw.
  - simpl. by rewrite take_nil, app_nil_r.
  - cbn [collect_loop]. case_decide as Hcap.
    + rewrite IH. simpl omap. destruct (has_value val) as [s|]; [|done].
      rewrite length_app, <-app_assoc. cbn [length app].
      replace (Z.to_nat (cap - Z.of_nat (length raw)))
        with (S (Z.to_nat (cap - Z.of_nat (length raw + 1)))) by lia.
      done.
    + replace (Z.to_nat (cap - Z.of_nat (length raw))) with 0%nat by lia.
      by rewrite take_0, app_nil_r.
Qed.

Lemma has_value_cstring s :
  cstring s →
  has_value (Some s) = if decide (s = EmptyString) then None else Some s.
Proof.
  intros Hs. unfold has_value, strdup. rewrite c_str_id by done.
  destruct s as [|c r]; [done|]. apply cstring_String in Hs as [Hc _].
  cbn [peek]. rewrite decide_False by done. by rewrite decide_False.
Qed.

Lemma omap_has_value rows :
  Forall (from_option cstring True) rows →
  omap has_value rows = non_empty_values rows.
Proof.
  unfold non_empty_values.
  induction 1 as [|val rest Hval _ IH]; [done|].
  destruct val as [s|]; [|done].
  change (omap has_value (Some s :: rest))
    with (match has_value (Some s) with
          | Some y => y :: omap has_value rest
          | None => omap has_value rest
          end).
  change (omap id (Some s :: rest)) with (s :: omap id rest).
  rewrite has_value_cstring by done. case_decide as Hs.
  - rewrite filter_cons_False by (intros H; by apply H). by rewrite IH.
  - rewrite filter_cons_True by done. by rewrite IH.
Qed.

End collecting.

(** C8. The collection step stores the non-null, non-empty values of the
    returned column in row order, up to [MAX_IDENTITIES] = 1,000,000 of
    them: the raw sequence is the first 1,000,000 such values, so it never
    holds more, and it holds all of them when they are no more than that. *)
Theorem collect_correct (rows : list (option string)) :
  Forall (from_option cstring True) rows →
  MAX_IDENTITIES = 1000000 ∧
  collect rows = take (Z.to_nat MAX_IDENTITIES) (non_empty_values rows) ∧
  Z.of_nat (length (collect rows)) <= MAX_IDENTITIES ∧
  (Z.of_nat (length (non_empty_values rows)) <= MAX_IDENTITIES →
   collect rows = non_empty_values rows).
Proof.
  intros Hrows.
  assert (collect rows = take (Z.to_nat MAX_IDENTITIES) (non_empty_values rows))
    as Heq.
  { unfold collect. rewrite collect_loop_take, omap_has_value by done.
    cbn [length app]. by rewrite Z.sub_0_r. }
  split_and!; [done|done| |].
  - rewrite Heq, length_take. unfold MAX_IDENTITIES. lia.
  - intros Hle. rewrite Heq. apply take_ge. lia.
Qed.

Lemma collect_correct_witness :
  let rows := [Some "a.com"; None; Some EmptyString; Some "*.a.com"] in
  Forall (from_option cstring True) rows ∧
  collect rows = ["a.com"; "*.a.com"] ∧
  collect rows = non_empty_values rows.
Proof.
  assert (Forall (from_option cstring True)
            [Some "a.com"; None; Some EmptyString; Some "*.a.com"]) as Hrows.
  { repeat constructor; by_computation. }
  split; [exact Hrows|]. split; [reflexivity|].
  apply (collect_correct _ Hrows). vm_compute. discriminate.
Defined.

(** ** The whole result pipeline *)

(** Sorting a whole array. *)
Lemma bubble_sort_whole (arr : list string) :
  ∃ sorted,
    bubble_sort arr (Z.of_nat (length arr)) = Some sorted ∧
    sorted ≡ₚ arr ∧ StronglySorted str_le sorted.
Proof.
  destruct (bubble_sort_settles arr (length arr)) as (a & Hsort & Hre & Hset);
    [done|].
  exists a. destruct Hre as (Hlen & Hperm & _). split_and!; [done..|].
  rewrite <-(take_ge a (length arr)) by lia. apply settled_sorted; [lia|done].
Qed.

Lemma process_run (raw : list string) :
  ∃ wild norm,
    process raw = Some (wild, norm) ∧
    wild ≡ₚ filter (has_prefix "*.") (uniqueness raw) ∧
    norm ≡ₚ filter (λ s, ¬ has_prefix "*." s) (uniqueness raw) ∧
    StronglySorted str_le wild ∧ StronglySorted str_le norm.
Proof.
  unfold process, partition_wild. rewrite partition_loop_filter.
  cbn [app].
  set (wild := filter (has_prefix "*.") (uniqueness raw)).
  set (norm := filter (λ s, ¬ has_prefix "*." s) (uniqueness raw)).
  destruct (bubble_sort_whole wild) as (wild' & -> & ? & ?).
  destruct (bubble_sort_whole norm) as (norm' & -> & ? & ?).
  by exists wild', norm'.
Qed.

(** ** Strings of the output path *)

Section paths.
Implicit Types (s a b d : string) (c : ascii).

Lemma string_length_app a b :
  String.length (a +:+ b) = (String.length a + String.length b)%nat.
Proof. induction a as [|c r IH]; simpl; [done|]. by rewrite IH. Qed.

Lemma list_ascii_app a b :
  list_ascii_of_string (a +:+ b) =
    list_ascii_of_string a ++ list_ascii_of_string b.
Proof. induction a as [|c r IH]; simpl; [done|]. by rewrite IH. Qed.

Lemma substring_all s n : (String.length s ≤ n)%nat → substring 0 n s = s.
Proof.
  revert n. induction s as [|c r IH]; intros n Hn.
  - by destruct n.
  - destruct n as [|n]; simpl in *; [lia|]. rewrite IH; [done|lia].
Qed.

Lemma strrchr_absent s c :
  c ≠ NUL → c ∉ list_ascii_of_string s → strrchr s c = None.
Proof.
  intros Hc. induction s as [|a r IH]; simpl.
  - intros _. by rewrite decide_False.
  - intros [Ha Hr]%not_elem_of_cons. case_decide; [by rewrite decide_False|].
    rewrite IH by done. rewrite decide_False; [done|congruence].
Qed.

Lemma valid_domain_no_slash d :
  valid_domain d → "/"%char ∉ list_ascii_of_string (output_path d).
Proof.
  intros [_ Hchars]. unfold output_path. rewrite list_ascii_app.
  apply not_elem_of_app. split.
  - intros Hin%Hchars. vm_compute in Hin. intuition congruence.
  - by_computation.
Qed.

(** The buffer of [main] holds the whole name of a valid domain. *)
Lemma output_file_valid d :
  cstring d → valid_domain d →
  snprintf 276 (c_str d +:+ "_identities.txt") = output_path d.
Proof.
  intros Hc [Hlen _]. unfold snprintf, output_path. rewrite c_str_id by done.
  apply substring_all. rewrite string_length_app.
  change (String.length "_identities.txt") with 15%nat. lia.
Qed.

Lemma output_path_cstring d : cstring d → cstring (output_path d).
Proof. intros Hc. apply cstring_app; [done|by_computation]. Qed.

End paths.

(** ** The steps of [main] *)

Section steps.
Implicit Types (w : world) (d : string).

Lemma check_connectivity_ok w :
  connect w 0 = CONNECTION_OK →
  check_connectivity w = ([EvConnect conninfo true; EvFinish], Returns 1).
Proof.
  intros H. unfold check_connectivity, PQconnectdb, PQfinish. rewrite H.
  cbn [connection_ok]. by mrun.
Qed.

Lemma check_connectivity_bad w msg :
  connect w 0 = CONNECTION_BAD msg →
  check_connectivity w =
    (EvConnect conninfo false :: fatal_trace w msg, Exits EXIT_FAILURE).
Proof.
  intros H. unfold check_connectivity, PQconnectdb. rewrite H.
  cbn [connection_ok]. mrun. by rewrite fatal_bind.
Qed.

Lemma check_output_directory_skipped w d :
  cstring d → valid_domain d →
  check_output_directory w (output_path d) = ([], Returns ()).
Proof.
  intros Hc Hv. unfold check_output_directory.
  by rewrite strrchr_absent by (done || by apply valid_domain_no_slash).
Qed.

Lemma run_query_ok w d column0 :
  cstring d →
  connect w 1 = CONNECTION_OK →
  exec_params w sql [d] = PGRES_TUPLES_OK column0 →
  run_query w d =
    ([EvConnect conninfo true; EvExecParams sql [d]], Returns column0).
Proof.
  intros Hc Hconn Hexec. unfold run_query, PQconnectdb, PQexecParams.
  rewrite Hconn. cbn [fmap list_fmap]. rewrite c_str_id by done.
  rewrite Hexec. cbn [connection_ok]. by mrun.
Qed.

Lemma print_loop_run output_file ids :
  print_loop output_file ids = (print_events output_file ids, Returns ()).
Proof.
  induction ids as [|s rest IH]; [done|].
  cbn [print_loop]. unfold printf, fprintf. rewrite !emit_bind, IH. done.
Qed.

Lemma write_output_ok w output_file wild norm :
  cstring output_file →
  fopen_ok w output_file "w" = true →
  write_output w output_file wild norm =
    (EvFopen output_file "w" true ::
     print_events output_file wild ++ print_events output_file norm ++
     [EvFclose output_file;
      EvWrite Stdout ("Output saved to " +:+ output_file +:+ LF)],
     Returns ()).
Proof.
  intros Hc Hopen. unfold write_output, fopen.
  rewrite !c_str_id by done. change (c_str "w") with "w". rewrite Hopen.
  unfold fclose, printf, fprintf, when. cbn [negb].
  rewrite !print_loop_run. by mrun.
Qed.

Lemma write_output_fails w output_file wild norm :
  cstring output_file →
  fopen_ok w output_file "w" = false →
  write_output w output_file wild norm =
    (EvFopen output_file "w" false ::
     fatal_trace w "Cannot create output file", Exits EXIT_FAILURE).
Proof.
  intros Hc Hopen. unfold write_output, fopen.
  rewrite !c_str_id by done. change (c_str "w") with "w". rewrite Hopen.
  unfold when. cbn [negb]. mrun. by rewrite fatal_bind.
Qed.

End steps.

(** ** What reaches the streams *)

Section streams.
Implicit Types (tr : list event) (ids : list string) (f : stream).

Lemma writes_to_app f tr1 tr2 :
  writes_to f (tr1 ++ tr2) = writes_to f tr1 ++ writes_to f tr2.
Proof. apply omap_app. Qed.

Lemma writes_to_cons_write f g text tr :
  writes_to f (EvWrite g text :: tr) =
    if decide (g = f) then text :: writes_to f tr else writes_to f tr.
Proof. unfold writes_to. simpl. by case_decide. Qed.

Lemma lines_app ids1 ids2 : lines (ids1 ++ ids2) = lines ids1 ++ lines ids2.
Proof. apply fmap_app. Qed.

Lemma writes_to_print_events_stdout output_file ids :
  Forall cstring ids →
  writes_to Stdout (print_events output_file ids) = lines ids.
Proof.
  induction 1 as [|s rest Hs _ IH]; [done|].
  change (print_events output_file (s :: rest))
    with (EvWrite Stdout (c_str s +:+ LF) ::
          EvWrite (File output_file) (c_str s +:+ LF) ::
          print_events output_file rest).
  rewrite !writes_to_cons_write, decide_True, decide_False by done.
  rewrite IH, c_str_id by done. done.
Qed.

Lemma writes_to_print_events_file output_file ids :
  Forall cstring ids →
  writes_to (File output_file) (print_events output_file ids) = lines ids.
Proof.
  induction 1 as [|s rest Hs _ IH]; [done|].
  change (print_events output_file (s :: rest))
    with (EvWrite Stdout (c_str s +:+ LF) ::
          EvWrite (File output_file) (c_str s +:+ LF) ::
          print_events output_file rest).
  rewrite !writes_to_cons_write, decide_False, decide_True by done.
  rewrite IH, c_str_id by done. done.
Qed.

Lemma writes_to_print_events_stderr output_file ids :
  writes_to Stderr (print_events output_file ids) = [].
Proof.
  induction ids as [|s rest IH]; [done|].
  change (print_events output_file (s :: rest))
    with (EvWrite Stdout (c_str s +:+ LF) ::
          EvWrite (File output_file) (c_str s +:+ LF) ::
          print_events output_file rest).
  by rewrite !writes_to_cons_write, !decide_False by done.
Qed.

Lemma writes_to_fatal_trace_stdout w msg :
  writes_to Stdout (fatal_trace w msg) = [].
Proof. unfold fatal_trace. by destruct (fopen_ok w LOG_FILE "a"). Qed.

Lemma writes_to_fatal_trace_stderr w msg :
  writes_to Stderr (fatal_trace w msg) = [error_entry (timestamp w) msg].
Proof. unfold fatal_trace. by destruct (fopen_ok w LOG_FILE "a"). Qed.

Lemma writes_to_fatal_trace_log w msg :
  writes_to (File LOG_FILE) (fatal_trace w msg) =
    if fopen_ok w LOG_FILE "a" then [error_entry (timestamp w) msg] else [].
Proof. unfold fatal_trace. by destruct (fopen_ok w LOG_FILE "a"). Qed.

Lemma writes_to_fatal_trace_other w msg path :
  path ≠ LOG_FILE → writes_to (File path) (fatal_trace w msg) = [].
Proof.
  intros Hne. unfold fatal_trace.
  destruct (fopen_ok w LOG_FILE "a");
    rewrite ?writes_to_cons_write, ?decide_False by congruence; try done.
  unfold writes_to. simpl. rewrite decide_False by congruence. done.
Qed.

End streams.

(** C5. The output writer, when the output file opens, writes the wildcard
    identities and then the normal ones, one per line in the order given,
    the same lines to the file and to the standard output (which also gets
    the closing message); when the file cannot be created, the run ends in
    [fatal_error] and no identity line reaches either destination. *)
Theorem write_output_correct (w : world) (output_file : string)
    (wild norm : list string) :
  cstring output_file → Forall cstring wild → Forall cstring norm →
  let run := write_output w output_file wild norm in
  if fopen_ok w output_file "w" then
    result run = Returns () ∧
    writes_to (File output_file) (trace run) = lines wild ++ lines norm ∧
    writes_to Stdout (trace run) =
      lines wild ++ lines norm ++ ["Output saved to " +:+ output_file +:+ LF]
  else
    result run = Exits EXIT_FAILURE ∧
    trace run = EvFopen output_file "w" false ::
                fatal_trace w "Cannot create output file" ∧
    writes_to Stdout (trace run) = [] ∧
    (output_file ≠ LOG_FILE → writes_to (File output_file) (trace run) = []).
Proof.
  intros Hc Hwild Hnorm run. subst run.
  destruct (fopen_ok w output_file "w") eqn:Hopen.
  - rewrite write_output_ok by done. cbn [trace result fst snd].
    split; [done|]. split.
    + change (EvFopen output_file "w" true :: ?l)
        with ([EvFopen output_file "w" true] ++ l).
      rewrite !writes_to_app, !writes_to_print_events_file by done.
      unfold writes_to at 1 2. simpl. by rewrite app_nil_r.
    + change (EvFopen output_file "w" true :: ?l)
        with ([EvFopen output_file "w" true] ++ l).
      rewrite !writes_to_app, !writes_to_print_events_stdout by done.
      done.
  - rewrite write_output_fails by done. cbn [trace result fst snd].
    split_and!; [done|done| |].
    + change (EvFopen output_file "w" false :: ?l)
        with ([EvFopen output_file "w" false] ++ l).
      by rewrite writes_to_app, writes_to_fatal_trace_stdout.
    + intros Hne.
      change (EvFopen output_file "w" false :: ?l)
        with ([EvFopen output_file "w" false] ++ l).
      by rewrite writes_to_app, writes_to_fatal_trace_other.
Qed.

(** ** Runs of [main] that reach the output *)

Lemma main_success (w : world) (argv0 d : string)
    (column0 : list (option string)) (wild norm : list string) :
  cstring d → valid_domain d → query_returns w d column0 →
  process (collect column0) = Some (wild, norm) →
  fopen_ok w (output_path d) "w" = true →
  main w [argv0; d] =
    ([EvConnect conninfo true; EvFinish;
      EvConnect conninfo true; EvExecParams sql [d]; EvClear; EvFinish;
      EvFopen (output_path d) "w" true] ++
     print_events (output_path d) wild ++ print_events (output_path d) norm ++
     [EvFclose (output_path d);
      EvWrite Stdout ("Output saved to " +:+ output_path d +:+ LF)],
     Returns 0).
Proof.
  intros Hc Hv (Hre & Hc0 & Hc1 & Hexec) Hproc Hopen. unfold main.
  rewrite output_file_valid by done.
  rewrite validate_domain_accepts by done.
  rewrite check_connectivity_ok by done.
  rewrite check_output_directory_skipped by done.
  rewrite (run_query_ok w d column0) by done.
  unfold PQclear, PQfinish. mrun.
  rewrite Hproc. unfold defined. mrun.
  rewrite write_output_ok by (done || by apply output_path_cstring).
  mrun. by rewrite app_nil_r.
Qed.

Lemma main_success_streams (w : world) (argv0 d : string)
    (column0 : list (option string)) (wild norm : list string) :
  cstring d → valid_domain d → query_returns w d column0 →
  process (collect column0) = Some (wild, norm) →
  Forall cstring wild → Forall cstring norm →
  fopen_ok w (output_path d) "w" = true →
  let run := main w [argv0; d] in
  exit_status run = Some 0 ∧
  EvFopen (output_path d) "w" true ∈ trace run ∧
  writes_to (File (output_path d)) (trace run) = lines (wild ++ norm) ∧
  writes_to Stdout (trace run) =
    lines (wild ++ norm) ++ ["Output saved to " +:+ output_path d +:+ LF] ∧
  writes_to Stderr (trace run) = [].
Proof.
  intros Hc Hv Hq Hproc Hwild Hnorm Hopen run. subst run.
  rewrite (main_success w argv0 d column0 wild norm) by done.
  cbn [trace fst]. split; [done|]. split.
  { apply elem_of_app. left. by apply (list_elem_of_lookup_2 _ 6%nat). }
  rewrite !writes_to_app, !writes_to_print_events_file,
    !writes_to_print_events_stdout, lines_app by done.
  split_and!.
  - unfold writes_to at 1 2. simpl. by rewrite app_nil_r.
  - unfold writes_to at 1 2. simpl. by rewrite <-app_assoc.
  - by rewrite !writes_to_print_events_stderr.
Qed.

(** C4. For the raw rows [*.b.com, a.com, a.com, *.a.com, b.com] the
    pipeline yields the wildcards [*.a.com, *.b.com] and the normal names
    [a.com, b.com], and a run that receives these rows prints exactly the
    lines [*.a.com, *.b.com, a.com, b.com], to the file and (before the
    closing message) to the standard output. *)
Theorem end_to_end_example (w : world) (argv0 d : string) :
  cstring d → valid_domain d → query_returns w d example_rows →
  fopen_ok w (output_path d) "w" = true →
  collect example_rows = ["*.b.com"; "a.com"; "a.com"; "*.a.com"; "b.com"] ∧
  process ["*.b.com"; "a.com"; "a.com"; "*.a.com"; "b.com"] =
    Some (["*.a.com"; "*.b.com"], ["a.com"; "b.com"]) ∧
  writes_to (File (output_path d)) (trace (main w [argv0; d])) =
    lines ["*.a.com"; "*.b.com"; "a.com"; "b.com"] ∧
  writes_to Stdout (trace (main w [argv0; d])) =
    lines ["*.a.com"; "*.b.com"; "a.com"; "b.com"] ++
    ["Output saved to " +:+ output_path d +:+ LF] ∧
  exit_status (main w [argv0; d]) = Some 0.
Proof.
  intros Hc Hv Hq Hopen.
  assert (process (collect example_rows) =
            Some (["*.a.com"; "*.b.com"], ["a.com"; "b.com"])) as Hproc
    by (vm_compute; reflexivity).
  destruct (main_success_streams w argv0 d example_rows
              ["*.a.com"; "*.b.com"] ["a.com"; "b.com"])
    as (Hexit & _ & Hfile & Hout & _);
    [done|done|done|done|by_computation|by_computation|done|].
  split_and!; [vm_compute; reflexivity|vm_compute; reflexivity|done..].
Qed.

Lemma end_to_end_example_witness :
  let w := sample_world (λ _, true) example_rows in
  cstring "example.com" ∧ valid_domain "example.com" ∧
  query_returns w "example.com" example_rows ∧
  writes_to (File "example.com_identities.txt")
    (trace (main w ["crt-search"; "example.com"])) =
    lines ["*.a.com"; "*.b.com"; "a.com"; "b.com"].
Proof.
  assert (cstring "example.com") as Hc by by_computation.
  assert (valid_domain "example.com") as Hv.
  { split; [simpl; lia|]. intros c Hc'. apply bracket_matches_allowed.
    revert c Hc'. apply Forall_forall. by_computation. }
  assert (query_returns (sample_world (λ _, true) example_rows)
            "example.com" example_rows) as Hq by done.
  split_and!; [done..|].
  apply (end_to_end_example (sample_world (λ _, true) example_rows)
           "crt-search" "example.com" Hc Hv Hq eq_refl).
Defined.

(** C9. For a valid domain whose query returns no row, in a world where the
    output file can be created, the run creates [<domain>_identities.txt],
    writes no line to it, and exits with status 0. *)
Theorem empty_result_set (w : world) (argv0 d : string) :
  cstring d → valid_domain d → query_returns w d [] →
  fopen_ok w (output_path d) "w" = true →
  EvFopen (output_path d) "w" true ∈ trace (main w [argv0; d]) ∧
  writes_to (File (output_path d)) (trace (main w [argv0; d])) = [] ∧
  writes_to Stdout (trace (main w [argv0; d])) =
    ["Output saved to " +:+ output_path d +:+ LF] ∧
  exit_status (main w [argv0; d]) = Some 0.
Proof.
  intros Hc Hv Hq Hopen.
  destruct (main_success_streams w argv0 d [] [] [])
    as (Hexit & Hcreated & Hfile & Hout & _);
    [done|done|done|done|constructor|constructor|done|].
  by split_and!.
Qed.

Lemma empty_result_set_witness :
  let w := sample_world (λ _, true) [] in
  cstring "example.com" ∧ valid_domain "example.com" ∧
  query_returns w "example.com" [] ∧
  writes_to (File "example.com_identities.txt")
    (trace (main w ["crt-search"; "example.com"])) = [] ∧
  exit_status (main w ["crt-search"; "example.com"]) = Some 0.
Proof.
  assert (cstring "example.com") as Hc by by_computation.
  assert (valid_domain "example.com") as Hv.
  { split; [simpl; lia|]. intros c Hc'. apply bracket_matches_allowed.
    revert c Hc'. apply Forall_forall. by_computation. }
  assert (query_returns (sample_world (λ _, true) []) "example.com" [])
    as Hq by done.
  split_and!; [done..| |];
    apply (empty_result_set (sample_world (λ _, true) [])
             "crt-search" "example.com" Hc Hv Hq eq_refl).
Defined.

(** ** Runs of [main], whatever the world *)

Section any_world.
Context (w : world).
Implicit Types (d : string) (Q : event → Prop).

Lemma all_events_pair {A} Q (tr : list event) (r : outcome A) :
  Forall Q tr → all_events Q (tr, r).
Proof. done. Qed.

Lemma fatal_trace_in_cwd d msg : Forall (output_in_cwd d) (fatal_trace w msg).
Proof.
  unfold fatal_trace.
  destruct (fopen_ok w LOG_FILE "a"); repeat constructor; by intros p ok [=].
Qed.

Lemma fatal_trace_offline msg : Forall offline (fatal_trace w msg).
Proof.
  unfold fatal_trace.
  destruct (fopen_ok w LOG_FILE "a"); repeat constructor;
    by intros p [= <-].
Qed.

Lemma validate_domain_in_cwd d : all_events (output_in_cwd d) (validate_domain w d).
Proof.
  destruct (validate_domain_run w d) as [->|[msg ->]]; [constructor|].
  apply all_events_pair, fatal_trace_in_cwd.
Qed.

Lemma check_connectivity_in_cwd d :
  all_events (output_in_cwd d) (check_connectivity w).
Proof.
  destruct (connect w 0) as [|msg] eqn:Hconn.
  - rewrite check_connectivity_ok by done.
    repeat constructor; by intros p ok [=].
  - rewrite (check_connectivity_bad w msg) by done.
    apply all_events_pair. constructor; [|apply fatal_trace_in_cwd].
    split; [done|]. by intros p ok [=].
Qed.

Lemma run_query_in_cwd d : all_events (output_in_cwd d) (run_query w d).
Proof.
  unfold run_query, PQconnectdb, PQexecParams.
  destruct (connect w 1) as [|msg]; cbn [connection_ok]; mrun.
  - destruct (exec_params w sql (c_str <$> [d])) as [column0|msg]; mrun.
    + repeat constructor; by intros p ok [=].
    + rewrite fatal_error_run. mrun. apply all_events_pair.
      do 2 (constructor; [split; [done|by intros p ok [=]]|]).
      apply fatal_trace_in_cwd.
  - rewrite fatal_bind. mrun. apply all_events_pair.
    constructor; [split; [done|by intros p ok [=]]|].
    apply fatal_trace_in_cwd.
Qed.

Lemma print_events_in_cwd d ids :
  Forall (output_in_cwd d) (print_events (output_path d) ids).
Proof.
  induction ids as [|s rest IH]; [constructor|].
  change (print_events (output_path d) (s :: rest))
    with (EvWrite Stdout (c_str s +:+ LF) ::
          EvWrite (File (output_path d)) (c_str s +:+ LF) ::
          print_events (output_path d) rest).
  repeat (constructor; [split; [done|by intros p ok [=]]|]). done.
Qed.

Lemma write_output_in_cwd d wild norm :
  cstring d →
  all_events (output_in_cwd d) (write_output w (output_path d) wild norm).
Proof.
  intros Hc. apply output_path_cstring in Hc.
  destruct (fopen_ok w (output_path d) "w") eqn:Hopen.
  - rewrite write_output_ok by done. apply all_events_pair.
    constructor; [split; [done|by intros p ok [= <-]]|].
    rewrite !Forall_app. split_and!; [apply print_events_in_cwd..|].
    repeat (constructor; [split; [done|by intros p ok [=]]|]). done.
  - rewrite write_output_fails by done. apply all_events_pair.
    constructor; [split; [done|by intros p ok [= <-]]|].
    apply fatal_trace_in_cwd.
Qed.

(** A run of a valid domain never checks a directory and creates no file
    but the output file. *)
Lemma main_in_cwd argv0 d :
  cstring d → valid_domain d →
  all_events (output_in_cwd d) (main w [argv0; d]).
Proof.
  intros Hc Hv. unfold main. rewrite output_file_valid by done.
  apply all_events_bind; [apply validate_domain_in_cwd|intros _].
  apply all_events_bind; [apply check_connectivity_in_cwd|intros _].
  apply all_events_bind;
    [rewrite check_output_directory_skipped by done; constructor|intros _].
  apply all_events_bind; [apply run_query_in_cwd|intros column0].
  unfold PQclear, PQfinish.
  apply all_events_bind; [repeat constructor; by intros p ok [=]|intros _].
  apply all_events_bind; [repeat constructor; by intros p ok [=]|intros _].
  apply all_events_bind.
  { unfold defined. destruct (process _); constructor. }
  intros [wild norm].
  apply all_events_bind; [by apply write_output_in_cwd|intros _].
  constructor.
Qed.

End any_world.

(** C10. For a domain that passes validation the output path is
    [<domain>_identities.txt] and holds no [/]: the directory check does
    nothing and returns, no run stats or probes a directory, and the only
    file a run creates is that path, relative to the working directory. *)
Theorem output_directory_check_unreachable (w : world) (argv0 d : string) :
  cstring d → result (validate_domain w d) = Returns 1 →
  snprintf 276 (c_str d +:+ "_identities.txt") = output_path d ∧
  ("/"%char ∉ list_ascii_of_string (output_path d)) ∧
  strrchr (output_path d) "/" = None ∧
  check_output_directory w (output_path d) = ([], Returns ()) ∧
  Forall (λ e, is_directory_check e = false) (trace (main w [argv0; d])) ∧
  (∀ p ok, EvFopen p "w" ok ∈ trace (main w [argv0; d]) → p = output_path d).
Proof.
  intros Hc Hret.
  assert (valid_domain d) as Hv.
  { apply (validate_domain_returns w d (trace (validate_domain w d)) 1 Hc).
    rewrite <-Hret. apply pair_eta. }
  pose proof (main_in_cwd w argv0 d Hc Hv) as Hall.
  unfold all_events in Hall. rewrite Forall_forall in Hall.
  split_and!.
  - by apply output_file_valid.
  - by apply valid_domain_no_slash.
  - apply strrchr_absent; [done|by apply valid_domain_no_slash].
  - by apply check_output_directory_skipped.
  - apply Forall_forall. intros e He. by apply Hall.
  - intros p ok Hin. by apply (Hall _ Hin) with ok.
Qed.

Lemma output_directory_check_unreachable_witness :
  let w := sample_world (λ _, true) example_rows in
  cstring "example.com" ∧
  result (validate_domain w "example.com") = Returns 1 ∧
  strrchr (output_path "example.com") "/" = None ∧
  Forall (λ e, is_directory_check e = false)
    (trace (main w ["crt-search"; "example.com"])).
Proof.
  assert (cstring "example.com") as Hc by by_computation.
  split; [exact Hc|]. split; [reflexivity|].
  split;
    apply (output_directory_check_unreachable
             (sample_world (λ _, true) example_rows)
             "crt-search" "example.com" Hc eq_refl).
Defined.

(** ** Rejected domains *)

Lemma main_rejects (w : world) (argv0 d : string) :
  cstring d → ¬ valid_domain d →
  ∃ msg, main w [argv0; d] = (fatal_trace w msg, Exits EXIT_FAILURE).
Proof.
  intros Hc Hinv. destruct (validate_domain_rejects w d Hc Hinv) as [msg Hrun].
  exists msg. unfold main. by rewrite Hrun, bind_exits.
Qed.

(** C6, as the program has it. A domain argument that breaks the
    character-set rule or the length rule is rejected: the run is one call
    of [fatal_error], it exits with a non-zero status, it makes no contact
    with the database, and the only file it touches is the error log. *)
Theorem invalid_domain_rejected (w : world) (argv0 d : string) :
  cstring d → ¬ valid_domain d →
  exit_status (main w [argv0; d]) = Some EXIT_FAILURE ∧
  EXIT_FAILURE ≠ 0 ∧
  (∃ msg, trace (main w [argv0; d]) = fatal_trace w msg) ∧
  Forall offline (trace (main w [argv0; d])).
Proof.
  intros Hc Hinv. destruct (main_rejects w argv0 d Hc Hinv) as [msg ->].
  split_and!; [done|done|by exists msg|apply fatal_trace_offline].
Qed.

Lemma invalid_domain_rejected_witness :
  let w := sample_world (λ _, true) [] in
  cstring "bad;domain" ∧ ¬ valid_domain "bad;domain" ∧
  exit_status (main w ["crt-search"; "bad;domain"]) = Some EXIT_FAILURE ∧
  Forall offline (trace (main w ["crt-search"; "bad;domain"])).
Proof.
  assert (cstring "bad;domain") as Hc by by_computation.
  assert (¬ valid_domain "bad;domain") as Hinv.
  { intros [_ H]. destruct (H ";"%char) as [?|[?|[?|[?|?]]]];
      [by_computation|unfold uchar in *; simpl in *; lia..]. }
  split; [exact Hc|]. split; [exact Hinv|].
  split;
    apply (invalid_domain_rejected (sample_world (λ _, true) [])
             "crt-search" "bad;domain" Hc Hinv).
Defined.

(** C6 in the words of the specification ("no network or file I/O occurs")
    does not hold: the run of a rejected domain opens the error log and
    appends to it, which is file I/O. *)
Lemma invalid_domain_writes_log :
  let run := main (sample_world (λ _, true) []) ["crt-search"; "bad;domain"] in
  cstring "bad;domain" ∧ ¬ valid_domain "bad;domain" ∧
  trace run =
    [EvWrite Stderr (error_entry "2026-10-30 07:05:00"
       "Domain 'bad;domain' contains invalid characters (quotes, semicolon, backtick)");
     EvFopen "script_errors.log" "a" true;
     EvWrite (File "script_errors.log") (error_entry "2026-10-30 07:05:00"
       "Domain 'bad;domain' contains invalid characters (quotes, semicolon, backtick)");
     EvFclose "script_errors.log"] ∧
  ¬ Forall (λ e, is_network e = false ∧ is_file_io e = false) (trace run).
Proof.
  split; [by_computation|]. split.
  { intros [_ H]. destruct (H ";"%char) as [?|[?|[?|[?|?]]]];
      [by_computation|unfold uchar in *; simpl in *; lia..]. }
  split; [vm_compute; reflexivity|].
  intros Hall. apply Forall_forall with (x := EvFclose "script_errors.log") in Hall.
  - by destruct Hall.
  - by apply (list_elem_of_lookup_2 _ 3%nat).
Qed.

(** ** Fatal errors *)

Section fatal.
Context (w : world).

Lemma emit_fails (e : event) : fails_fatally w (λ _, True) (emit e).
Proof. done. Qed.

Lemma ret_fails {A} (post : A → Prop) (a : A) :
  post a → fails_fatally w post (mret a).
Proof. done. Qed.

Lemma validate_domain_fails d : fails_fatally w (λ _, True) (validate_domain w d).
Proof.
  destruct (validate_domain_run w d) as [->|[msg ->]]; [done|].
  split; [done|]. by exists [], msg.
Qed.

Lemma connection_fails (conn : PGconn) :
  fails_fatally w (λ _, True)
    (match conn with
     | CONNECTION_OK => mret ()
     | CONNECTION_BAD errorMessage => fatal_error w errorMessage
     end).
Proof. destruct conn; [done|apply fatal_error_fails]. Qed.

Lemma check_connectivity_fails : fails_fatally w (λ _, True) (check_connectivity w).
Proof.
  unfold check_connectivity, PQconnectdb, PQfinish.
  apply (fails_fatally_bind w (λ _, True)); [done|intros conn _].
  apply (fails_fatally_bind w (λ _, True)); [apply connection_fails|intros _ _].
  apply (fails_fatally_bind w (λ _, True)); [done|intros _ _]. done.
Qed.

Lemma check_output_directory_fails output_file :
  fails_fatally w (λ _, True) (check_output_directory w output_file).
Proof.
  unfold check_output_directory, stat, access.
  destruct (strrchr output_file "/") as [slash|]; [|done].
  apply (fails_fatally_bind w (λ _, True)); [done|intros st _].
  apply (fails_fatally_bind w (λ _, True)).
  - by destruct st as [[|]|].
  - intros writable _. apply when_fatal_fails.
Qed.

Lemma run_query_fails d : fails_fatally w (λ _, True) (run_query w d).
Proof.
  unfold run_query, PQconnectdb, PQexecParams.
  apply (fails_fatally_bind w (λ _, True)); [done|intros conn _].
  apply (fails_fatally_bind w (λ _, True)); [apply connection_fails|intros _ _].
  apply (fails_fatally_bind w (λ _, True)); [done|intros res _].
  destruct res; [done|apply fatal_error_fails].
Qed.

Lemma print_loop_fails output_file ids :
  fails_fatally w (λ _, True) (print_loop output_file ids).
Proof. by rewrite print_loop_run. Qed.

Lemma write_output_fatal output_file wild norm :
  fails_fatally w (λ _, True) (write_output w output_file wild norm).
Proof.
  unfold write_output, fopen, fclose, printf, fprintf.
  apply (fails_fatally_bind w (λ _, True)); [done|intros out _].
  apply (fails_fatally_bind w (λ _, True)); [apply when_fatal_fails|intros _ _].
  apply (fails_fatally_bind w (λ _, True)); [apply print_loop_fails|intros _ _].
  apply (fails_fatally_bind w (λ _, True)); [apply print_loop_fails|intros _ _].
  apply (fails_fatally_bind w (λ _, True)); [done|intros _ _]. done.
Qed.

(** With a domain argument, [main] returns 0 or ends in [fatal_error]. *)
Lemma main_fails argv0 d : fails_fatally w (λ st, st = 0) (main w [argv0; d]).
Proof.
  unfold main, PQclear, PQfinish.
  apply (fails_fatally_bind w (λ _, True));
    [apply validate_domain_fails|intros _ _].
  apply (fails_fatally_bind w (λ _, True));
    [apply check_connectivity_fails|intros _ _].
  apply (fails_fatally_bind w (λ _, True));
    [apply check_output_directory_fails|intros _ _].
  apply (fails_fatally_bind w (λ _, True)); [apply run_query_fails|intros column0 _].
  apply (fails_fatally_bind w (λ _, True)); [done|intros _ _].
  apply (fails_fatally_bind w (λ _, True)); [done|intros _ _].
  apply (fails_fatally_bind w (λ _, True)).
  { destruct (process_run (collect column0)) as (wild & norm & -> & _). done. }
  intros [wild norm] _.
  apply (fails_fatally_bind w (λ _, True));
    [apply write_output_fatal|intros _ _].
  done.
Qed.

End fatal.

(** ** The time stamp *)

Section timestamps.
Implicit Types (shape s : string) (n : Z).

Lemma has_shape_app shape1 shape2 s1 s2 :
  has_shape shape1 s1 = true → has_shape shape2 s2 = true →
  has_shape (shape1 +:+ shape2) (s1 +:+ s2) = true.
Proof.
  revert s1. induction shape1 as [|p shape1 IH]; intros [|c s1]; simpl;
    try done.
  intros [Hc Hs]%andb_true_iff Hs2. by rewrite Hc, IH.
Qed.

Lemma has_shape_cstring shape s :
  cstring shape → has_shape shape s = true → cstring s.
Proof.
  revert s. induction shape as [|p shape IH]; intros [|c s]; simpl; try done.
  intros [Hp Hshape]%cstring_String [Hc Hs]%andb_true_iff.
  apply cstring_String. split; [|by apply IH].
  case_decide.
  - intros ->. by vm_compute in Hc.
  - apply bool_decide_eq_true in Hc. congruence.
Qed.

Lemma pad2_shape n : 0 <= n <= 99 → has_shape "dd" (pad2 n) = true.
Proof.
  intros Hn.
  assert (forallb (λ k, has_shape "dd" (pad2 (Z.of_nat k))) (seq 0 100) = true)
    as Hall by (vm_compute; reflexivity).
  rewrite forallb_forall in Hall. specialize (Hall (Z.to_nat n)).
  rewrite Z2Nat.id in Hall by lia. apply Hall, in_seq. lia.
Qed.

Lemma year_shape n : 1000 <= n <= 9999 → has_shape "dddd" (decimal n) = true.
Proof.
  intros Hn.
  assert (forallb (λ k, has_shape "dddd" (decimal (Z.of_nat k)))
            (seq 1000 (90 * 100)) = true)
    as Hall by (vm_compute; reflexivity).
  rewrite forallb_forall in Hall. specialize (Hall (Z.to_nat n)).
  rewrite Z2Nat.id in Hall by lia. apply Hall, in_seq. lia.
Qed.

Lemma strftime_stamp t :
  strftime "%Y-%m-%d %H:%M:%S" t =
    decimal (tm_year t + 1900) +:+ "-" +:+ pad2 (tm_mon t + 1) +:+ "-" +:+
    pad2 (tm_mday t) +:+ " " +:+ pad2 (tm_hour t) +:+ ":" +:+
    pad2 (tm_min t) +:+ ":" +:+ pad2 (tm_sec t) +:+ EmptyString.
Proof. reflexivity. Qed.

Lemma timestamp_shape w :
  calendar (localtime w) →
  has_shape "dddd-dd-dd dd:dd:dd" (timestamp w) = true.
Proof.
  intros (HY & Hm & Hd & HH & HM & HS). unfold timestamp.
  rewrite strftime_stamp.
  change "dddd-dd-dd dd:dd:dd"
    with ("dddd" +:+ "-" +:+ "dd" +:+ "-" +:+ "dd" +:+ " " +:+ "dd" +:+
          ":" +:+ "dd" +:+ ":" +:+ "dd" +:+ EmptyString).
  repeat (apply has_shape_app;
          [first [by apply year_shape | apply pad2_shape; lia | reflexivity]|]).
  reflexivity.
Qed.

End timestamps.

Lemma write_output_correct_witness :
  let w := sample_world (λ _, true) [] in
  cstring "example.com_identities.txt" ∧
  Forall cstring ["*.example.com"] ∧ Forall cstring ["example.com"] ∧
  writes_to (File "example.com_identities.txt")
    (trace (write_output w "example.com_identities.txt"
              ["*.example.com"] ["example.com"])) =
    lines ["*.example.com"] ++ lines ["example.com"].
Proof.
  assert (cstring "example.com_identities.txt") as Hc by by_computation.
  assert (Forall cstring ["*.example.com"]) as Hw by by_computation.
  assert (Forall cstring ["example.com"]) as Hn by by_computation.
  split_and!; [done..|].
  apply (write_output_correct (sample_world (λ _, true) [])
           "example.com_identities.txt" ["*.example.com"] ["example.com"]
           Hc Hw Hn).
Defined.

(** * Further properties of the program *)

(** ** Usage *)

(** X1. With an argument count other than 2 the run prints the usage line
    to the standard error and returns [EXIT_FAILURE]; it does nothing else:
    no log entry, no connection, no file. *)
Theorem usage_error (w : world) (argv : list string) :
  length argv ≠ 2%nat →
  main w argv =
    ([EvWrite Stderr
        ("Usage: " +:+ c_str (hd "(null)" argv) +:+ " <domain>" +:+ LF)],
     Returns EXIT_FAILURE).
Proof.
  intros Hlen. destruct argv as [|a0 [|a1 [|a2 rest]]]; try done.
Qed.

Lemma usage_error_witness :
  length ["crt-search"] ≠ 2%nat ∧
  trace (main (sample_world (λ _, true) []) ["crt-search"]) =
    [EvWrite Stderr ("Usage: crt-search <domain>" +:+ LF)] ∧
  exit_status (main (sample_world (λ _, true) []) ["crt-search"]) = Some 1.
Proof.
  assert (length ["crt-search"] ≠ 2%nat) as Hlen by (simpl; lia).
  split; [exact Hlen|].
  rewrite (usage_error (sample_world (λ _, true) []) ["crt-search"] Hlen).
  split; reflexivity.
Defined.

(** ** Validation, case by case *)

Lemma snprintf_fits (size : nat) (s : string) :
  (String.length s < size)%nat → snprintf size s = s.
Proof. intros Hlen. unfold snprintf. apply substring_all. lia. Qed.

Lemma strpbrk_found (d accept : string) :
  cstring d →
  strpbrk d accept ≠ None ↔
  ∃ c, c ∈ list_ascii_of_string d ∧ c ∈ list_ascii_of_string (c_str accept).
Proof.
  induction d as [|a r IH]; cbn [strpbrk list_ascii_of_string].
  - intros _. split; [done|]. intros (c & Hc & _). by apply elem_of_nil in Hc.
  - intros [Ha Hr]%cstring_String. rewrite decide_False by done.
    case_decide as Hin.
    + split; [|done]. intros _. exists a. split; [left|done].
    + rewrite IH by done. split.
      * intros (c & Hc & Hacc). exists c. split; [by right|done].
      * intros (c & [->|Hc]%elem_of_cons & Hacc); [done|]. by exists c.
Qed.

(** The two formatted messages fit their 512-byte buffers. *)
Lemma validation_messages_fit (d : string) :
  (String.length d ≤ 255)%nat →
  snprintf 512
    ("Domain '" +:+ d +:+
     "' contains invalid characters (quotes, semicolon, backtick)") =
    "Domain '" +:+ d +:+
    "' contains invalid characters (quotes, semicolon, backtick)" ∧
  snprintf 512
    ("Domain '" +:+ d +:+ "' must contain only alphanumeric, dot or hyphen") =
    "Domain '" +:+ d +:+ "' must contain only alphanumeric, dot or hyphen".
Proof.
  intros Hlen. split; apply snprintf_fits; rewrite !string_length_app.
  - change (String.length "Domain '") with 8%nat.
    change (String.length
              "' contains invalid characters (quotes, semicolon, backtick)")
      with 59%nat. lia.
  - change (String.length "Domain '") with 8%nat.
    change (String.length "' must contain only alphanumeric, dot or hyphen")
      with 47%nat. lia.
Qed.

(** X2. On a C string, [validate_domain] returns exactly when the domain is
    valid (1 to 255 characters, each a letter, digit, dot or hyphen) and the
    pattern compiles; it then returns 1 and has caused no event. *)
Theorem validate_domain_returns_iff (w : world) (d : string) :
  cstring d →
  ((∃ st, result (validate_domain w d) = Returns st) ↔
   valid_domain d ∧ regcomp_ok w = true) ∧
  (∀ st, result (validate_domain w d) = Returns st →
     st = 1 ∧ trace (validate_domain w d) = []).
Proof.
  intros Hc. split.
  - split.
    + intros [st Hst]. split.
      * apply (validate_domain_returns w d (trace (validate_domain w d)) st Hc).
        rewrite <-Hst. apply pair_eta.
      * revert Hst. unfold validate_domain, when.
        destruct (bool_decide (strlen d = 0 ∨ 255 < strlen d)%nat);
          [by rewrite fatal_bind|]. rewrite ret_bind.
        destruct (bool_decide (strpbrk d dangerous ≠ None));
          [by rewrite fatal_bind|]. rewrite ret_bind.
        destruct (regcomp_ok w); [done|]. cbn [negb]. by rewrite fatal_bind.
    + intros [Hv Hre]. exists 1. by rewrite validate_domain_accepts.
  - intros st Hst.
    destruct (validate_domain_run w d) as [Hrun|[msg Hrun]];
      rewrite Hrun in Hst |- *; [|done].
    split; [|done]. cbn in Hst. congruence.
Qed.

Lemma validate_domain_returns_iff_witness :
  cstring "example.com" ∧
  result (validate_domain (sample_world (λ _, true) []) "example.com") =
    Returns 1 ∧
  valid_domain "example.com".
Proof.
  assert (cstring "example.com") as Hc by by_computation.
  split; [exact Hc|]. split; [reflexivity|].
  apply (validate_domain_returns_iff (sample_world (λ _, true) [])
           "example.com" Hc).
  exists 1. reflexivity.
Defined.

(** X3. The checks of [validate_domain] run in a fixed order and each
    failure has its own message: the length first, then the quote, double
    quote, semicolon and backtick, then the compilation of the pattern, then
    the character set.  The two messages that quote the domain hold it in
    full: the 512-byte buffer never cuts them. *)
Theorem validation_messages (w : world) (d : string) :
  cstring d →
  ((String.length d = 0 ∨ 255 < String.length d)%nat →
   validate_domain w d =
     (fatal_trace w "Domain length must be 1-255 characters",
      Exits EXIT_FAILURE)) ∧
  ((1 ≤ String.length d ≤ 255)%nat →
   ((∃ c, c ∈ list_ascii_of_string d ∧ c ∈ list_ascii_of_string dangerous) →
    validate_domain w d =
      (fatal_trace w
         ("Domain '" +:+ d +:+
          "' contains invalid characters (quotes, semicolon, backtick)"),
       Exits EXIT_FAILURE)) ∧
   ((∀ c, c ∈ list_ascii_of_string d → c ∉ list_ascii_of_string dangerous) →
    (regcomp_ok w = false →
     validate_domain w d =
       (fatal_trace w "Regex compilation failed", Exits EXIT_FAILURE)) ∧
    (regcomp_ok w = true →
     ¬ (∀ c, c ∈ list_ascii_of_string d → allowed_char c) →
     validate_domain w d =
       (fatal_trace w
          ("Domain '" +:+ d +:+
           "' must contain only alphanumeric, dot or hyphen"),
        Exits EXIT_FAILURE)))).
Proof.
  intros Hc. split.
  { intros Hlen. unfold validate_domain, when. rewrite strlen_cstring by done.
    rewrite (bool_decide_eq_true_2
               (String.length d = 0 ∨ 255 < String.length d)%nat) by done.
    apply fatal_bind. }
  intros Hlen.
  destruct (validation_messages_fit d) as [Hfit1 Hfit2]; [lia|].
  assert (∀ f : () → M Z,
    when (bool_decide (strlen d = 0 ∨ 255 < strlen d)%nat)
      (fatal_error w "Domain length must be 1-255 characters") ≫= f = f ())
    as Hpass.
  { intros f. rewrite strlen_cstring by done.
    rewrite (bool_decide_eq_false_2
               (String.length d = 0 ∨ 255 < String.length d)%nat) by lia.
    apply ret_bind. }
  split.
  { intros Hbad. unfold validate_domain. rewrite Hpass. unfold when.
    rewrite (bool_decide_eq_true_2 (strpbrk d dangerous ≠ None))
      by (by apply strpbrk_found).
    rewrite c_str_id, Hfit1 by done. apply fatal_bind. }
  intros Hsafe.
  assert (strpbrk d dangerous = None) as Hnone.
  { destruct (strpbrk d dangerous) eqn:Hp; [|done]. exfalso.
    assert (strpbrk d dangerous ≠ None) as Hne by congruence.
    apply strpbrk_found in Hne as (c & Hin & Hacc); [|done].
    by apply (Hsafe c). }
  split.
  - intros Hre. unfold validate_domain. rewrite Hpass. unfold when.
    rewrite Hnone.
    rewrite (bool_decide_eq_false_2 (@None string ≠ None))
      by (intros H; by apply H).
    rewrite ret_bind, Hre. cbn [negb]. apply fatal_bind.
  - intros Hre Hchars. unfold validate_domain. rewrite Hpass. unfold when.
    rewrite Hnone.
    rewrite (bool_decide_eq_false_2 (@None string ≠ None))
      by (intros H; by apply H).
    rewrite ret_bind, Hre. cbn [negb]. rewrite ret_bind.
    rewrite (bool_decide_eq_true_2 (regexec_star domain_bracket d ≠ 0))
      by (by rewrite regexec_star_allowed).
    rewrite c_str_id, Hfit2 by done. apply fatal_bind.
Qed.

Lemma validation_messages_witness :
  cstring "a_b.com" ∧ (1 ≤ String.length "a_b.com" ≤ 255)%nat ∧
  validate_domain (sample_world (λ _, true) []) "a_b.com" =
    (fatal_trace (sample_world (λ _, true) [])
       "Domain 'a_b.com' must contain only alphanumeric, dot or hyphen",
     Exits EXIT_FAILURE).
Proof.
  assert (cstring "a_b.com") as Hc by by_computation.
  assert (1 ≤ String.length "a_b.com" ≤ 255)%nat as Hlen by (simpl; lia).
  split; [exact Hc|]. split; [exact Hlen|].
  apply (validation_messages (sample_world (λ _, true) []) "a_b.com" Hc);
    [exact Hlen| |reflexivity|].
  - apply Forall_forall. by_computation.
  - intros Hall. specialize (Hall "_"%char).
    destruct Hall as [?|[?|[?|[?|?]]]];
      [by_computation|unfold uchar in *; simpl in *; lia..].
Defined.

(** ** Failures of the database *)

Lemma run_query_conn_bad (w : world) (d msg : string) :
  connect w 1 = CONNECTION_BAD msg →
  run_query w d =
    (EvConnect conninfo false :: fatal_trace w msg, Exits EXIT_FAILURE).
Proof.
  intros Hconn. unfold run_query, PQconnectdb. rewrite Hconn.
  cbn [connection_ok]. mrun. by rewrite fatal_bind.
Qed.

Lemma run_query_exec_bad (w : world) (d msg : string) :
  cstring d →
  connect w 1 = CONNECTION_OK →
  exec_params w sql [d] = PGRES_OTHER msg →
  run_query w d =
    ([EvConnect conninfo true; EvExecParams sql [d]] ++ fatal_trace w msg,
     Exits EXIT_FAILURE).
Proof.
  intros Hc Hconn Hexec. unfold run_query, PQconnectdb, PQexecParams.
  rewrite Hconn. cbn [fmap list_fmap]. rewrite c_str_id by done.
  rewrite Hexec. cbn [connection_ok]. mrun. by rewrite fatal_error_run.
Qed.

Lemma nil_bind {A B} (a : A) (f : A → M B) : ([], Returns a) ≫= f = f a.
Proof. apply (ret_bind a f). Qed.

(** [main] on a domain that passes validation: what is left to run. *)
Lemma main_validated (w : world) (argv0 d : string) :
  cstring d → valid_domain d → regcomp_ok w = true →
  main w [argv0; d] =
    check_connectivity w ≫= λ _,
    run_query w d ≫= λ column0,
    PQclear ≫= λ _,
    PQfinish ≫= λ _,
    defined (process (collect column0)) ≫= λ '(wild, norm),
    write_output w (output_path d) wild norm ≫= λ _, mret 0.
Proof.
  intros Hc Hv Hre. unfold main.
  rewrite output_file_valid, validate_domain_accepts by done.
  rewrite check_output_directory_skipped by done.
  by rewrite !nil_bind.
Qed.

(** X4. When the first connection, the probe, cannot be made, the run of a
    valid domain is that one attempt followed by [fatal_error] with the
    message of the connection: no query is sent and no output file is
    created. *)
Theorem probe_failure (w : world) (argv0 d msg : string) :
  cstring d → valid_domain d → regcomp_ok w = true →
  connect w 0 = CONNECTION_BAD msg →
  main w [argv0; d] =
    (EvConnect conninfo false :: fatal_trace w msg, Exits EXIT_FAILURE).
Proof.
  intros Hc Hv Hre Hconn. rewrite main_validated by done.
  by rewrite (check_connectivity_bad w msg), bind_exits.
Qed.

Lemma probe_failure_witness :
  let w := {| localtime := mk_tm 126 9 30 7 5 0;
              fopen_ok := λ _ _, true; regcomp_ok := true;
              connect := λ _, CONNECTION_BAD "timeout expired";
              exec_params := λ _ _, PGRES_TUPLES_OK [];
              stat_dir := λ _, None; access_w := λ _, false |} in
  cstring "example.com" ∧ valid_domain "example.com" ∧
  writes_to Stderr (trace (main w ["crt-search"; "example.com"])) =
    [error_entry "2026-10-30 07:05:00" "timeout expired"] ∧
  exit_status (main w ["crt-search"; "example.com"]) = Some 1.
Proof.
  intros w.
  assert (cstring "example.com") as Hc by by_computation.
  assert (valid_domain "example.com") as Hv.
  { split; [simpl; lia|]. intros c Hc'. apply bracket_matches_allowed.
    revert c Hc'. apply Forall_forall. by_computation. }
  split; [exact Hc|]. split; [exact Hv|].
  rewrite (probe_failure w "crt-search" "example.com" "timeout expired"
             Hc Hv eq_refl eq_refl).
  split; reflexivity.
Defined.

(** X5. When the second connection cannot be made, or the query does not
    end in [PGRES_TUPLES_OK], the run ends in [fatal_error] with the message
    of the database and creates no output file.  The probe's connection was
    finished; after a failed query the query's connection is not: the run
    leaves without [PQclear] and [PQfinish]. *)
Theorem query_failure (w : world) (argv0 d msg : string) :
  cstring d → valid_domain d → regcomp_ok w = true →
  connect w 0 = CONNECTION_OK →
  (connect w 1 = CONNECTION_BAD msg →
   main w [argv0; d] =
     ([EvConnect conninfo true; EvFinish; EvConnect conninfo false] ++
      fatal_trace w msg, Exits EXIT_FAILURE)) ∧
  (connect w 1 = CONNECTION_OK → exec_params w sql [d] = PGRES_OTHER msg →
   main w [argv0; d] =
     ([EvConnect conninfo true; EvFinish;
       EvConnect conninfo true; EvExecParams sql [d]] ++
      fatal_trace w msg, Exits EXIT_FAILURE)).
Proof.
  intros Hc Hv Hre Hprobe. split.
  - intros Hconn. rewrite main_validated, check_connectivity_ok by done.
    rewrite bind_returns, (run_query_conn_bad w d msg), bind_exits by done.
    done.
  - intros Hconn Hexec. rewrite main_validated, check_connectivity_ok by done.
    rewrite bind_returns, (run_query_exec_bad w d msg), bind_exits by done.
    done.
Qed.

Lemma query_failure_witness :
  let w := {| localtime := mk_tm 126 9 30 7 5 0;
              fopen_ok := λ _ _, true; regcomp_ok := true;
              connect := λ _, CONNECTION_OK;
              exec_params := λ _ _, PGRES_OTHER "statement timeout";
              stat_dir := λ _, None; access_w := λ _, false |} in
  cstring "example.com" ∧ valid_domain "example.com" ∧
  writes_to Stderr (trace (main w ["crt-search"; "example.com"])) =
    [error_entry "2026-10-30 07:05:00" "statement timeout"] ∧
  connections_open 0 (trace (main w ["crt-search"; "example.com"])) = 1%nat.
Proof.
  intros w.
  assert (cstring "example.com") as Hc by by_computation.
  assert (valid_domain "example.com") as Hv.
  { split; [simpl; lia|]. intros c Hc'. apply bracket_matches_allowed.
    revert c Hc'. apply Forall_forall. by_computation. }
  split; [exact Hc|]. split; [exact Hv|].
  destruct (query_failure w "crt-search" "example.com" "statement timeout"
              Hc Hv eq_refl eq_refl) as [_ Hexec].
  rewrite (Hexec eq_refl eq_refl). split; reflexivity.
Defined.

(** ** The collected identities *)

Lemma has_value_nonempty (val : option string) (s : string) :
  has_value val = Some s → cstring s ∧ s ≠ EmptyString.
Proof.
  destruct val as [v|]; [|done]. unfold has_value, strdup.
  case_decide as Hpeek; [done|]. intros [= <-].
  split; [apply c_str_cstring|].
  destruct v as [|c r]; [done|]. cbn [peek] in Hpeek. cbn [c_str].
  by rewrite decide_False.
Qed.

Lemma collect_values (rows : list (option string)) :
  Forall (λ s, cstring s ∧ s ≠ EmptyString) (collect rows) ∧
  (length (collect rows) ≤ length rows)%nat.
Proof.
  unfold collect. rewrite collect_loop_take. cbn [app].
  assert (Forall (λ s, cstring s ∧ s ≠ EmptyString) (omap has_value rows) ∧
          (length (omap has_value rows) ≤ length rows)%nat) as [Hall Hlen].
  { induction rows as [|val rest [IH1 IH2]]; [by split|].
    change (omap has_value (val :: rest))
      with (match has_value val with
            | Some y => y :: omap has_value rest
            | None => omap has_value rest
            end).
    destruct (has_value val) as [s|] eqn:Hval.
    - split; [|simpl; lia]. constructor; [|done].
      by apply (has_value_nonempty val).
    - split; [done|simpl; lia]. }
  split; [by apply Forall_take|]. rewrite length_take. lia.
Qed.

Lemma collect_cstring (rows : list (option string)) :
  Forall cstring (collect rows).
Proof.
  eapply Forall_impl; [apply collect_values|]. by intros s [? _].
Qed.

(** X7. Whatever the rows, every collected identity is a non-empty C
    string (a null or empty value is skipped, a value is copied up to its
    terminator), and there are at most as many identities as rows. *)
Theorem collect_invariant (rows : list (option string)) :
  Forall (λ s, cstring s ∧ s ≠ EmptyString) (collect rows) ∧
  (length (collect rows) ≤ length rows)%nat ∧
  (∀ s, s ∈ collect rows → ∃ v, Some v ∈ rows ∧ s = c_str v).
Proof.
  destruct (collect_values rows) as [Hall Hlen]. split_and!; [done..|].
  intros s Hs. unfold collect in Hs. rewrite collect_loop_take in Hs.
  cbn [app] in Hs. apply elem_of_take in Hs as (i & Hi & _).
  apply list_elem_of_lookup_2 in Hi.
  apply list_elem_of_omap in Hi as (val & Hval & Hs).
  destruct val as [v|]; [|done]. exists v. split; [done|].
  unfold has_value, strdup in Hs. case_decide; [done|]. congruence.
Qed.

(** ** Every run of [main] *)

Lemma process_cstring (raw : list string) :
  Forall cstring raw →
  ∃ wild norm,
    process raw = Some (wild, norm) ∧ Forall cstring wild ∧ Forall cstring norm.
Proof.
  intros Hraw.
  destruct (process_run raw) as (wild & norm & Hproc & Hw & Hn & _ & _).
  exists wild, norm. split; [done|].
  apply uniqueness_cstring in Hraw. rewrite Forall_forall in Hraw.
  split; apply Forall_forall; intros x Hx.
  - rewrite Hw in Hx. apply list_elem_of_filter in Hx as [_ Hx]. auto.
  - rewrite Hn in Hx. apply list_elem_of_filter in Hx as [_ Hx]. auto.
Qed.

Lemma main_write_fails (w : world) (argv0 d : string)
    (column0 : list (option string)) :
  cstring d → valid_domain d → query_returns w d column0 →
  fopen_ok w (output_path d) "w" = false →
  main w [argv0; d] =
    (database_events d ++ [EvFopen (output_path d) "w" false] ++
     fatal_trace w "Cannot create output file", Exits EXIT_FAILURE).
Proof.
  intros Hc Hv (Hre & Hc0 & Hc1 & Hexec) Hopen.
  destruct (process_run (collect column0)) as (wild & norm & Hproc & _).
  rewrite main_validated, check_connectivity_ok by done.
  rewrite (run_query_ok w d column0) by done.
  unfold PQclear, PQfinish. mrun.
  rewrite Hproc. unfold defined. mrun.
  rewrite write_output_fails by (done || by apply output_path_cstring).
  by mrun.
Qed.

(** The shapes of the runs of [main] on a domain argument. *)
Lemma main_cases (w : world) (argv0 d : string) :
  cstring d → run_shape w d (main w [argv0; d]).
Proof.
  intros Hc.
  destruct (validate_domain_run w d) as [Hret|[msg Hexit]]; cycle 1.
  { unfold main. rewrite Hexit, bind_exits. constructor. }
  assert (valid_domain d) as Hv by (by eapply validate_domain_returns).
  assert (regcomp_ok w = true) as Hre.
  { revert Hret. unfold validate_domain, when.
    destruct (bool_decide (strlen d = 0 ∨ 255 < strlen d)%nat);
      [by rewrite fatal_bind|]. rewrite ret_bind.
    destruct (bool_decide (strpbrk d dangerous ≠ None));
      [by rewrite fatal_bind|]. rewrite ret_bind.
    destruct (regcomp_ok w); [done|]. cbn [negb]. by rewrite fatal_bind. }
  destruct (connect w 0) as [|msg] eqn:Hc0; cycle 1.
  { rewrite main_validated, (check_connectivity_bad w msg), bind_exits by done.
    constructor. }
  destruct (connect w 1) as [|msg] eqn:Hc1; cycle 1.
  { rewrite main_validated, check_connectivity_ok by done.
    rewrite bind_returns, (run_query_conn_bad w d msg), bind_exits by done.
    apply run_refused. }
  destruct (exec_params w sql [d]) as [column0|msg] eqn:Hexec; cycle 1.
  { rewrite main_validated, check_connectivity_ok by done.
    rewrite bind_returns, (run_query_exec_bad w d msg), bind_exits by done.
    by apply run_query_failed. }
  assert (query_returns w d column0) as Hq by done.
  destruct (fopen_ok w (output_path d) "w") eqn:Hopen; cycle 1.
  { rewrite (main_write_fails w argv0 d column0) by done. constructor. }
  destruct (process_cstring (collect column0)) as (wild & norm & Hproc & Hw & Hn);
    [apply collect_cstring|].
  rewrite (main_success w argv0 d column0 wild norm) by done.
  by apply run_succeeded.
Qed.

(** X6. Whatever the world and the arguments, a run ends with status 0 or
    with [EXIT_FAILURE]: the sorts never leave their arrays.  Status 0 needs
    exactly one argument after the program name. *)
Theorem exit_status_values (w : world) (argv : list string) :
  (exit_status (main w argv) = Some 0 ∨
   exit_status (main w argv) = Some EXIT_FAILURE) ∧
  (exit_status (main w argv) = Some 0 → length argv = 2%nat).
Proof.
  destruct (decide (length argv = 2%nat)) as [Hlen|Hlen].
  - destruct argv as [|argv0 [|d [|? ?]]]; try done.
    pose proof (main_fails w argv0 d) as Hmain.
    unfold fails_fatally in Hmain. unfold exit_status.
    destruct (result (main w [argv0; d])) as [st|st|]; [|destruct Hmain|done].
    + subst st. split; [by left|done].
    + subst st. split; [by right|done].
  - assert (exit_status (main w argv) = Some EXIT_FAILURE) as ->.
    { by destruct argv as [|a0 [|a1 [|a2 rest]]]. }
    split; [by right|done].
Qed.

(** ** Streams, files and connections of a run *)

Section whole_runs.
Context (w : world).
Implicit Types (d msg : string) (tr : list event).

Lemma fatal_trace_local msg :
  Forall (λ e, is_network e = false ∧ is_create e = false) (fatal_trace w msg).
Proof.
  unfold fatal_trace. destruct (fopen_ok w LOG_FILE "a"); by repeat constructor.
Qed.

Lemma print_events_local output_file ids :
  Forall (λ e, is_network e = false ∧ is_create e = false)
    (print_events output_file ids).
Proof.
  induction ids as [|s rest IH]; [constructor|].
  change (print_events output_file (s :: rest))
    with (EvWrite Stdout (c_str s +:+ LF) ::
          EvWrite (File output_file) (c_str s +:+ LF) ::
          print_events output_file rest).
  by repeat (constructor; [done|]).
Qed.

Lemma queries_of_app tr1 tr2 :
  queries_of (tr1 ++ tr2) = queries_of tr1 ++ queries_of tr2.
Proof. apply omap_app. Qed.

Lemma queries_of_local tr :
  Forall (λ e, is_network e = false ∧ is_create e = false) tr →
  queries_of tr = [].
Proof.
  induction 1 as [|e tr [He _] _ IH]; [done|].
  destruct e; try done; apply IH.
Qed.

Lemma files_open_app opened tr1 tr2 :
  files_open opened (tr1 ++ tr2) = files_open (files_open opened tr1) tr2.
Proof.
  revert opened. induction tr1 as [|e tr1 IH]; intros opened; [done|].
  destruct e; simpl; try apply IH;
    match goal with |- context [if ?b then _ else _] => destruct b end;
    apply IH.
Qed.

Lemma files_open_print_events opened output_file ids :
  files_open opened (print_events output_file ids) = opened.
Proof.
  induction ids as [|s rest IH]; [done|].
  change (print_events output_file (s :: rest))
    with (EvWrite Stdout (c_str s +:+ LF) ::
          EvWrite (File output_file) (c_str s +:+ LF) ::
          print_events output_file rest).
  simpl. apply IH.
Qed.

Lemma files_open_fatal_trace msg : files_open [] (fatal_trace w msg) = [].
Proof.
  unfold fatal_trace. by destruct (fopen_ok w LOG_FILE "a").
Qed.

Lemma connections_open_app n tr1 tr2 :
  connections_open n (tr1 ++ tr2) =
    connections_open (connections_open n tr1) tr2.
Proof.
  revert n. induction tr1 as [|e tr1 IH]; intros n; [done|].
  destruct e; simpl; try apply IH;
    match goal with |- context [if ?b then _ else _] => destruct b end;
    apply IH.
Qed.

Lemma connections_open_local n tr :
  Forall (λ e, is_network e = false ∧ is_create e = false) tr →
  connections_open n tr = n.
Proof.
  induction 1 as [|e tr [He _] _ IH]; [done|].
  destruct e; try done; apply IH.
Qed.

Lemma writes_to_fopen f p mode ok tr :
  writes_to f (EvFopen p mode ok :: tr) = writes_to f tr.
Proof. done. Qed.

End whole_runs.

Ltac split_cases :=
  repeat match goal with H : _ ∨ _ |- _ => destruct H as [H|H] end.

(** Splits the trace of a run into its known parts. *)
Ltac by_run_shape H :=
  destruct H as [msg|msg|msg|msg ? ?| |wild norm Hwild Hnorm];
  cbn [trace result fst snd exit_status] in *.

(** X14. A run on a domain argument that ends with status 0 writes nothing
    to the standard error; one that ends with [EXIT_FAILURE] writes nothing
    to the standard output and exactly one entry, that of [fatal_error], to
    the standard error. *)
Theorem streams_by_outcome (w : world) (argv0 d : string) :
  cstring d →
  (exit_status (main w [argv0; d]) = Some 0 →
   writes_to Stderr (trace (main w [argv0; d])) = [] ∧
   ∃ ids,
     writes_to (File (output_path d)) (trace (main w [argv0; d])) = lines ids ∧
     writes_to Stdout (trace (main w [argv0; d])) =
       lines ids ++ ["Output saved to " +:+ output_path d +:+ LF]) ∧
  (exit_status (main w [argv0; d]) = Some EXIT_FAILURE →
   writes_to Stdout (trace (main w [argv0; d])) = [] ∧
   ∃ msg,
     writes_to Stderr (trace (main w [argv0; d])) =
       [error_entry (timestamp w) msg]).
Proof.
  intros Hc. pose proof (main_cases w argv0 d Hc) as Hrun.
  unfold exit_status. remember (main w [argv0; d]) as run eqn:Heq. clear Heq.
  by_run_shape Hrun.
  1-5: split; [done|]; intros _;
       rewrite ?writes_to_app, ?writes_to_fatal_trace_stdout,
         ?writes_to_fatal_trace_stderr;
       (split; [done|by exists msg]) ||
       (split; [done|by exists "Cannot create output file"]).
  split; [|done]. intros _.
  rewrite !writes_to_app, !writes_to_print_events_stderr,
    !writes_to_print_events_file, !writes_to_print_events_stdout by done.
  split; [done|]. exists (wild ++ norm). rewrite lines_app.
  split; [|by rewrite <-app_assoc].
  change (writes_to (File (output_path d)) (database_events d)) with (@nil string).
  change (writes_to (File (output_path d)) [EvFopen (output_path d) "w" true])
    with (@nil string).
  unfold writes_to at 1. simpl. by rewrite app_nil_r.
Qed.

Lemma streams_by_outcome_witness :
  cstring "bad;domain" ∧
  exit_status (main (sample_world (λ _, true) []) ["crt-search"; "bad;domain"]) =
    Some EXIT_FAILURE ∧
  writes_to Stdout
    (trace (main (sample_world (λ _, true) []) ["crt-search"; "bad;domain"])) = [].
Proof.
  assert (cstring "bad;domain") as Hc by by_computation.
  split; [exact Hc|]. split; [reflexivity|].
  apply (streams_by_outcome (sample_world (λ _, true) [])
           "crt-search" "bad;domain" Hc).
  reflexivity.
Defined.

(** X15. The output file is created or truncated only after the database
    work is over: if a run opens any file for writing, that file is
    [<domain>_identities.txt] and the run began with the probe, the query
    connection, the query and the release of both.  A failed validation,
    connection or query leaves an earlier output file as it was. *)
Theorem output_created_after_query (w : world) (argv0 d : string) :
  cstring d →
  ∀ p mode ok,
    EvFopen p mode ok ∈ trace (main w [argv0; d]) → mode = "w" →
    p = output_path d ∧
    database_events d `prefix_of` trace (main w [argv0; d]).
Proof.
  intros Hc p mode ok Hin ->.
  pose proof (main_cases w argv0 d Hc) as Hrun.
  remember (main w [argv0; d]) as run eqn:Heq. clear Heq.
  assert (∀ tr, Forall (λ e, is_network e = false ∧ is_create e = false) tr →
                EvFopen p "w" ok ∉ tr) as Hlocal.
  { intros tr Hall Hp. rewrite Forall_forall in Hall.
    by destruct (Hall _ Hp) as [_ ?]. }
  by_run_shape Hrun.
  1-4: exfalso; pose proof (Hlocal _ (fatal_trace_local w msg));
       rewrite ?elem_of_app, ?elem_of_cons in Hin;
       split_cases; try done; by apply elem_of_nil in Hin.
  - pose proof (Hlocal _ (fatal_trace_local w "Cannot create output file")).
    split; [|by eexists].
    unfold database_events in Hin.
    rewrite ?elem_of_app, ?elem_of_cons in Hin.
    split_cases; try done; try congruence;
      by apply elem_of_nil in Hin.
  - pose proof (Hlocal _ (print_events_local (output_path d) wild)).
    pose proof (Hlocal _ (print_events_local (output_path d) norm)).
    split; [|by eexists].
    unfold database_events in Hin.
    rewrite ?elem_of_app, ?elem_of_cons in Hin.
    split_cases; try done; try congruence;
      by apply elem_of_nil in Hin.
Qed.

Lemma output_created_after_query_witness :
  let w := sample_world (λ _, true) example_rows in
  cstring "example.com" ∧
  EvFopen "example.com_identities.txt" "w" true ∈
    trace (main w ["crt-search"; "example.com"]) ∧
  database_events "example.com" `prefix_of`
    trace (main w ["crt-search"; "example.com"]).
Proof.
  intros w.
  assert (cstring "example.com") as Hc by by_computation.
  assert (EvFopen "example.com_identities.txt" "w" true ∈
            trace (main w ["crt-search"; "example.com"])) as Hin.
  { apply (list_elem_of_lookup_2 _ 6%nat). reflexivity. }
  split; [exact Hc|]. split; [exact Hin|].
  apply (output_created_after_query w "crt-search" "example.com" Hc
           _ _ _ Hin eq_refl).
Defined.

(** X16. A run on a domain argument leaves no file open: the log and the
    output file are closed whenever they were opened.  It leaves at most one
    database connection open, and only when the query itself failed: the
    probe is always finished, the query connection is finished after a
    successful query, and [fatal_error] leaves without [PQfinish]. *)
Theorem resources_at_exit (w : world) (argv0 d : string) :
  cstring d →
  files_open [] (trace (main w [argv0; d])) = [] ∧
  (connections_open 0 (trace (main w [argv0; d])) = 0%nat ∨
   connections_open 0 (trace (main w [argv0; d])) = 1%nat ∧
   connect w 1 = CONNECTION_OK ∧
   ∃ msg, exec_params w sql [d] = PGRES_OTHER msg).
Proof.
  intros Hc. pose proof (main_cases w argv0 d Hc) as Hrun.
  remember (main w [argv0; d]) as run eqn:Heq. clear Heq.
  by_run_shape Hrun.
  1-5: rewrite ?files_open_app, ?connections_open_app.
  - rewrite files_open_fatal_trace. split; [done|]. left.
    apply connections_open_local, fatal_trace_local.
  - split; [apply files_open_fatal_trace|]. left.
    apply (connections_open_local 0), fatal_trace_local.
  - split; [apply files_open_fatal_trace|]. left.
    apply (connections_open_local 0), fatal_trace_local.
  - split; [apply files_open_fatal_trace|]. right.
    split; [|by eauto].
    apply (connections_open_local 1), fatal_trace_local.
  - split; [apply files_open_fatal_trace|]. left.
    apply (connections_open_local 0), fatal_trace_local.
  - rewrite !files_open_app, !connections_open_app.
    change (files_open [] (database_events d)) with (@nil string).
    change (files_open [] [EvFopen (output_path d) "w" true])
      with [output_path d].
    rewrite !files_open_print_events.
    rewrite !(connections_open_local _ (print_events _ _))
      by apply print_events_local.
    split; [|by left]. simpl.
    by rewrite filter_cons_False by (intros H; by apply H).
Qed.

Lemma resources_at_exit_witness :
  let w := sample_world (λ _, true) example_rows in
  cstring "example.com" ∧
  files_open [] (trace (main w ["crt-search"; "example.com"])) = [] ∧
  connections_open 0 (trace (main w ["crt-search"; "example.com"])) = 0%nat.
Proof.
  intros w.
  assert (cstring "example.com") as Hc by by_computation.
  split; [exact Hc|]. split; [|reflexivity].
  apply (resources_at_exit w "crt-search" "example.com" Hc).
Defined.

(** X17. A run on a domain argument sends no query or exactly one, and that
    one is always the fixed text [sql] with the domain as its only
    parameter: the domain never becomes part of the query text.  A run that
    ends with status 0 has sent it. *)
Theorem one_parameterised_query (w : world) (argv0 d : string) :
  cstring d →
  (queries_of (trace (main w [argv0; d])) = [] ∨
   queries_of (trace (main w [argv0; d])) = [(sql, [d])]) ∧
  (exit_status (main w [argv0; d]) = Some 0 →
   queries_of (trace (main w [argv0; d])) = [(sql, [d])]).
Proof.
  intros Hc. pose proof (main_cases w argv0 d Hc) as Hrun.
  unfold exit_status. remember (main w [argv0; d]) as run eqn:Heq. clear Heq.
  by_run_shape Hrun.
  1-5: split; [|done]; rewrite ?queries_of_app;
       rewrite (queries_of_local (fatal_trace _ _)) by apply fatal_trace_local;
       by (left + right).
  assert (queries_of
            (database_events d ++ [EvFopen (output_path d) "w" true] ++
             print_events (output_path d) wild ++
             print_events (output_path d) norm ++
             [EvFclose (output_path d);
              EvWrite Stdout ("Output saved to " +:+ output_path d +:+ LF)]) =
          [(sql, [d])]) as ->; [|split; [by right|done]].
  rewrite !queries_of_app.
  by rewrite !(queries_of_local (print_events _ _)) by apply print_events_local.
Qed.

Lemma one_parameterised_query_witness :
  let w := sample_world (λ _, true) example_rows in
  cstring "example.com" ∧
  exit_status (main w ["crt-search"; "example.com"]) = Some 0 ∧
  queries_of (trace (main w ["crt-search"; "example.com"])) =
    [(sql, ["example.com"])].
Proof.
  intros w.
  assert (cstring "example.com") as Hc by by_computation.
  split; [exact Hc|]. split; [reflexivity|].
  apply (one_parameterised_query w "crt-search" "example.com" Hc).
  reflexivity.
Defined.

(** ** The pipeline as a whole *)

Lemma str_le_refl (a : string) : str_le a a.
Proof.
  unfold str_le. by rewrite (proj2 (strcmp_0_c_str a a)).
Qed.

Lemma str_le_antisym (a b : string) :
  cstring a → cstring b → str_le a b → str_le b a → a = b.
Proof.
  unfold str_le. intros Ha Hb Hab Hba. rewrite (strcmp_opp a b) in Hba.
  apply strcmp_0_eq; [done..|]. lia.
Qed.

(** Two sorted arrangements of the same C strings are the same list. *)
Lemma sorted_arrangement_unique (l1 l2 : list string) :
  Forall cstring l1 →
  StronglySorted str_le l1 → StronglySorted str_le l2 → l1 ≡ₚ l2 → l1 = l2.
Proof.
  revert l2. induction l1 as [|x l1 IH]; intros l2 Hc H1 H2 Hperm.
  - by apply Permutation_nil_l in Hperm.
  - destruct l2 as [|y l2]; [by apply Permutation_nil_r in Hperm|].
    apply Forall_cons in Hc as [Hx Hc].
    apply StronglySorted_inv in H1 as [H1 Hx1].
    apply StronglySorted_inv in H2 as [H2 Hy2].
    rewrite Forall_forall in Hx1, Hy2, Hc.
    assert (y ∈ x :: l1) as Hy by (rewrite Hperm; left).
    assert (x ∈ y :: l2) as Hx' by (rewrite <-Hperm; left).
    assert (x = y) as <-.
    { apply elem_of_cons in Hy as [->|Hy]; [done|].
      apply elem_of_cons in Hx' as [->|Hx']; [done|].
      apply str_le_antisym; auto. }
    f_equal. apply IH; [by apply Forall_forall|done..|].
    by apply Permutation_cons_inv in Hperm.
Qed.

Lemma Forall_filter_keeps {A} (P Q : A → Prop) `{∀ x, Decision (Q x)}
    (l : list A) :
  Forall P l → Forall P (filter Q l).
Proof.
  rewrite !Forall_forall. intros Hall x [_ Hx]%list_elem_of_filter. auto.
Qed.

(** X11. On C strings the three steps together never fail and give the two
    output sequences: between them every value of the input exactly once,
    the wildcard sequence holding the values that start with [*.] and the
    normal sequence the others, each sorted under [strcmp]. *)
Theorem process_correct (raw : list string) :
  Forall cstring raw →
  ∃ wild norm,
    process raw = Some (wild, norm) ∧
    NoDup (wild ++ norm) ∧
    (∀ x, x ∈ wild ++ norm ↔ x ∈ raw) ∧
    Forall (has_prefix "*.") wild ∧
    Forall (λ s, ¬ has_prefix "*." s) norm ∧
    StronglySorted str_le wild ∧ StronglySorted str_le norm.
Proof.
  intros Hraw.
  destruct (process_run raw) as (wild & norm & Hproc & Hw & Hn & Hsw & Hsn).
  exists wild, norm.
  assert (wild ++ norm ≡ₚ uniqueness raw) as Hall.
  { rewrite Hw, Hn. apply filter_app_complement. }
  split_and!; try done.
  - rewrite Hall. by apply uniqueness_NoDup.
  - intros x. rewrite Hall. by apply uniqueness_elem_of.
  - apply Forall_forall. intros x Hx. rewrite Hw in Hx.
    by apply list_elem_of_filter in Hx as [? _].
  - apply Forall_forall. intros x Hx. rewrite Hn in Hx.
    by apply list_elem_of_filter in Hx as [? _].
Qed.

Lemma process_correct_witness :
  Forall cstring ["b.com"; "*.b.com"; "b.com"; "a.com"] ∧
  process ["b.com"; "*.b.com"; "b.com"; "a.com"] =
    Some (["*.b.com"], ["a.com"; "b.com"]) ∧
  ∃ wild norm,
    process ["b.com"; "*.b.com"; "b.com"; "a.com"] = Some (wild, norm) ∧
    NoDup (wild ++ norm).
Proof.
  assert (Forall cstring ["b.com"; "*.b.com"; "b.com"; "a.com"]) as Hc
    by by_computation.
  split; [exact Hc|]. split; [reflexivity|].
  destruct (process_correct _ Hc) as (wild & norm & Hproc & Hnodup & _).
  exists wild, norm. split; [exact Hproc|exact Hnodup].
Defined.

(** X12. The output depends on the set of values only: two raw sequences of
    C strings with the same values, in whatever order and with whatever
    repetitions, give the same two output sequences. *)
Theorem process_order_independent (raw1 raw2 : list string) :
  Forall cstring raw1 → Forall cstring raw2 →
  (∀ x, x ∈ raw1 ↔ x ∈ raw2) →
  process raw1 = process raw2.
Proof.
  intros Hc1 Hc2 Hsame.
  destruct (process_run raw1) as (w1 & n1 & -> & Hw1 & Hn1 & Hsw1 & Hsn1).
  destruct (process_run raw2) as (w2 & n2 & -> & Hw2 & Hn2 & Hsw2 & Hsn2).
  assert (uniqueness raw1 ≡ₚ uniqueness raw2) as Hperm.
  { apply NoDup_Permutation; [by apply uniqueness_NoDup..|].
    intros x. rewrite !uniqueness_elem_of by done. apply Hsame. }
  assert (Forall cstring (uniqueness raw1)) as Hu by by apply uniqueness_cstring.
  assert (w1 = w2) as ->.
  { apply sorted_arrangement_unique; [|done..|].
    - rewrite Hw1. by apply Forall_filter_keeps.
    - by rewrite Hw1, Hw2, Hperm. }
  assert (n1 = n2) as ->; [|done].
  apply sorted_arrangement_unique; [|done..|].
  - rewrite Hn1. by apply Forall_filter_keeps.
  - by rewrite Hn1, Hn2, Hperm.
Qed.

Lemma process_order_independent_witness :
  Forall cstring ["b.com"; "*.b.com"; "a.com"] ∧
  Forall cstring ["a.com"; "b.com"; "a.com"; "*.b.com"] ∧
  process ["b.com"; "*.b.com"; "a.com"] =
    process ["a.com"; "b.com"; "a.com"; "*.b.com"].
Proof.
  assert (Forall cstring ["b.com"; "*.b.com"; "a.com"]) as H1 by by_computation.
  assert (Forall cstring ["a.com"; "b.com"; "a.com"; "*.b.com"]) as H2
    by by_computation.
  split; [exact H1|]. split; [exact H2|].
  apply (process_order_independent _ _ H1 H2).
  intros x. rewrite !elem_of_cons. split; intros H; split_cases; subst; auto 10;
    by apply elem_of_nil in H.
Defined.

(** ** More on uniqueness *)

Lemma scan_dup_absent (s : string) (unique : list string) :
  cstring s → Forall cstring unique → s ∉ unique → scan_dup s unique = false.
Proof.
  intros Hs Hall Hout. destruct (scan_dup s unique) eqn:Hdup; [|done].
  by apply scan_dup_elem_of in Hdup.
Qed.

Lemma uniqueness_NoDup_id (raw : list string) :
  Forall cstring raw → NoDup raw → uniqueness raw = raw.
Proof.
  induction raw as [|s raw IH] using rev_ind; intros Hall Hnodup; [done|].
  apply Forall_app in Hall as [Hraw [Hs _]%Forall_cons].
  apply NoDup_app in Hnodup as (Hnd & Hdisj & _).
  rewrite uniqueness_snoc, IH by done. unfold keep_new.
  rewrite scan_dup_absent; [done..|].
  intros Hin. apply (Hdisj s Hin). left.
Qed.

(** X8. The uniqueness step only drops entries: its result is a
    subsequence of the input.  It leaves an input without repetition as it
    is, so running it twice changes nothing more. *)
Theorem uniqueness_subsequence (raw : list string) :
  Forall cstring raw →
  uniqueness raw `sublist_of` raw ∧
  (NoDup raw → uniqueness raw = raw) ∧
  uniqueness (uniqueness raw) = uniqueness raw.
Proof.
  intros Hall. split_and!.
  - clear Hall. induction raw as [|s raw IH] using rev_ind; [done|].
    rewrite uniqueness_snoc. unfold keep_new.
    destruct (scan_dup s (uniqueness raw)).
    + by apply sublist_inserts_r.
    + by apply sublist_app.
  - by apply uniqueness_NoDup_id.
  - apply uniqueness_NoDup_id; [by apply uniqueness_cstring|].
    by apply uniqueness_NoDup.
Qed.

Lemma uniqueness_subsequence_witness :
  Forall cstring ["a.com"; "b.com"; "a.com"] ∧
  uniqueness ["a.com"; "b.com"; "a.com"] = ["a.com"; "b.com"] ∧
  uniqueness ["a.com"; "b.com"; "a.com"] `sublist_of` ["a.com"; "b.com"; "a.com"].
Proof.
  assert (Forall cstring ["a.com"; "b.com"; "a.com"]) as Hc by by_computation.
  split; [exact Hc|]. split; [reflexivity|].
  apply (uniqueness_subsequence _ Hc).
Defined.

(** ** More on sorting *)

Lemma sorted_lookup (l : list string) (p q : nat) (x y : string) :
  StronglySorted str_le l → (p < q)%nat →
  l !! p = Some x → l !! q = Some y → str_le x y.
Proof.
  intros Hsorted. revert p q.
  induction Hsorted as [|h l Hl IH Hh]; intros p q Hpq Hx Hy; [done|].
  destruct q as [|q]; [lia|]. destruct p as [|p].
  - simpl in Hx, Hy. simplify_eq. rewrite Forall_forall in Hh.
    apply Hh. by eapply list_elem_of_lookup_2.
  - simpl in Hx, Hy. apply (IH p q); [lia|done..].
Qed.

Lemma bubble_sort_keeps_sorted (arr : list string) (n : nat) :
  (n ≤ length arr)%nat → StronglySorted str_le (take n arr) →
  bubble_sort arr (Z.of_nat n) = Some arr.
Proof.
  intros Hn Hsorted. unfold bubble_sort.
  destruct (decide (n = 0)%nat) as [->|Hpos]; [by rewrite for_range_empty by lia|].
  destruct (for_range_inv (λ (_ : Z) a, a = arr)
    (λ (i : Z) a, for_range (i + 1) (Z.of_nat n)
                    (λ (j : Z) a, swap_if_greater i j a) a)
    0 (Z.of_nat n - 1) arr) as (a & Hloop & ->); [lia|done| |done].
  intros i t Hi ->.
  destruct (for_range_inv (λ (_ : Z) a, a = arr)
    (λ (j : Z) a, swap_if_greater i j a)
    (i + 1) (Z.of_nat n) arr) as (a & Hloop & ->); [lia|done| |by exists arr].
  intros j t Hj ->. exists arr. split; [|done].
  destruct (lookup_lt_is_Some_2 arr (Z.to_nat i)) as [x Hx]; [lia|].
  destruct (lookup_lt_is_Some_2 arr (Z.to_nat j)) as [y Hy]; [lia|].
  unfold swap_if_greater, at_index. rewrite !decide_True by lia.
  rewrite Hx, Hy. rewrite decide_False; [done|].
  assert (str_le x y) as Hle; [|unfold str_le in Hle; lia].
  apply (sorted_lookup (take n arr) (Z.to_nat i) (Z.to_nat j)); [done|lia|..].
  - by rewrite lookup_take_lt by lia.
  - by rewrite lookup_take_lt by lia.
Qed.

(** X9. [bubble_sort] leaves an array whose first [n] entries are already
    in order exactly as it is, so sorting a second time changes nothing. *)
Theorem bubble_sort_idempotent (arr : list string) (n : Z) :
  n <= Z.of_nat (length arr) →
  (StronglySorted str_le (take (Z.to_nat n) arr) → bubble_sort arr n = Some arr) ∧
  (∀ sorted, bubble_sort arr n = Some sorted → bubble_sort sorted n = Some sorted).
Proof.
  intros Hn. destruct (decide (n < 0)) as [Hneg|Hpos].
  { unfold bubble_sort. split; intros; by rewrite for_range_empty by lia. }
  assert (n = Z.of_nat (Z.to_nat n)) as Hnat by lia.
  split.
  - intros Hsorted. rewrite Hnat. apply bubble_sort_keeps_sorted; [lia|done].
  - intros sorted Hrun.
    destruct (bubble_sort_settles arr (Z.to_nat n)) as (a & Ha & Hre & Hset);
      [lia|].
    rewrite <-Hnat in Ha. assert (a = sorted) as -> by congruence.
    destruct Hre as (Hlen & _ & _).
    rewrite Hnat. apply bubble_sort_keeps_sorted; [lia|].
    apply settled_sorted; [lia|done].
Qed.

Lemma bubble_sort_idempotent_witness :
  3 <= Z.of_nat (length ["b.com"; "c.com"; "a.com"; "0"]) ∧
  bubble_sort ["b.com"; "c.com"; "a.com"; "0"] 3 =
    Some ["a.com"; "b.com"; "c.com"; "0"] ∧
  bubble_sort ["a.com"; "b.com"; "c.com"; "0"] 3 =
    Some ["a.com"; "b.com"; "c.com"; "0"].
Proof.
  assert (3 <= Z.of_nat (length ["b.com"; "c.com"; "a.com"; "0"])) as Hn
    by (simpl; lia).
  split; [exact Hn|]. split; [reflexivity|].
  apply (bubble_sort_idempotent ["b.com"; "c.com"; "a.com"; "0"] 3 Hn).
  reflexivity.
Defined.

(** A loop whose body has no defined behaviour in some round has none. *)
Lemma for_loop_stuck {St : Type} (P : Z → St → Prop)
    (body : Z → St → option St) (rounds : nat) (k stuck : Z) (s : St) :
  k <= stuck < k + Z.of_nat rounds →
  P k s →
  (∀ j t, k <= j < stuck → P j t → ∃ t', body j t = Some t' ∧ P (j + 1) t') →
  (∀ t, P stuck t → body stuck t = None) →
  for_loop rounds k body s = None.
Proof.
  revert k s. induction rounds as [|rounds IH]; intros k s Hk HP Hstep Hstuck;
    [lia|].
  simpl. destruct (decide (k = stuck)) as [->|Hne].
  - by rewrite Hstuck.
  - destruct (Hstep k s) as (t & -> & Ht); [lia|done|].
    apply IH; [lia|done| |done].
    intros j u Hj. apply Hstep. lia.
Qed.

Lemma swap_if_greater_length (i j : Z) (a a' : list string) :
  swap_if_greater i j a = Some a' → length a' = length a.
Proof.
  unfold swap_if_greater.
  destruct (at_index a i); [|done]. destruct (at_index a j); [|done].
  case_decide; intros [= <-]; [|done]. by rewrite !length_insert.
Qed.

(** X10. For a count [n] above [INT_MIN] and up to [INT_MAX], the counts
    for which [n - 1] is an [int], [bubble_sort] reads outside its array
    exactly when [n] is at least 2 and greater than the number of entries;
    for every other count of that range, also 0, 1 and the negative ones,
    it returns. *)
Theorem bubble_sort_bounds (arr : list string) (n : Z) :
  INT_MIN < n <= INT_MAX →
  bubble_sort arr n = None ↔ 2 <= n ∧ Z.of_nat (length arr) < n.
Proof.
  intros _. split.
  - intros Hnone. destruct (decide (n <= Z.of_nat (length arr))) as [Hle|Hgt].
    + destruct (decide (n < 0)) as [Hneg|Hpos].
      * unfold bubble_sort in Hnone. by rewrite for_range_empty in Hnone by lia.
      * destruct (bubble_sort_settles arr (Z.to_nat n)) as (a & Ha & _); [lia|].
        rewrite Z2Nat.id in Ha by lia. congruence.
    + destruct (decide (2 <= n)) as [H2|H2]; [lia|].
      unfold bubble_sort in Hnone. destruct (decide (n <= 1)) as [H1|H1]; [|lia].
      by rewrite for_range_empty in Hnone by lia.
  - intros [H2 Hlen]. unfold bubble_sort. unfold for_range at 1.
    replace (Z.to_nat (n - 1 - 0)) with (S (Z.to_nat (n - 2))) by lia.
    cbn [for_loop].
    assert (for_range (0 + 1) n (λ j arr0, swap_if_greater 0 j arr0) arr = None)
      as ->; [|done].
    unfold for_range.
    apply (for_loop_stuck (λ _ a, length a = length arr) _ _ _
             (Z.max 1 (Z.of_nat (length arr)))); [lia|done| |].
    + intros j t Hj Ht.
      destruct (lookup_lt_is_Some_2 t 0) as [x Hx]; [lia|].
      destruct (lookup_lt_is_Some_2 t (Z.to_nat j)) as [y Hy]; [lia|].
      destruct (swap_if_greater 0 j t) as [t'|] eqn:Hswap.
      * exists t'. split; [done|].
        apply swap_if_greater_length in Hswap. congruence.
      * exfalso. revert Hswap. unfold swap_if_greater, at_index.
        rewrite !decide_True by lia. change (Z.to_nat 0) with 0%nat.
        rewrite Hx, Hy. by case_decide.
    + intros t Ht. unfold swap_if_greater, at_index.
      rewrite !decide_True by lia.
      destruct (t !! Z.to_nat 0); [|done].
      rewrite (lookup_ge_None_2 t (Z.to_nat (Z.max 1 (Z.of_nat (length arr)))));
        [done|lia].
Qed.

Lemma bubble_sort_bounds_witness :
  INT_MIN < 3 <= INT_MAX ∧
  bubble_sort ["b"; "a"] 3 = None ∧
  bubble_sort ["b"; "a"] 2 = Some ["a"; "b"].
Proof.
  assert (INT_MIN < 3 <= INT_MAX) as Hn by (unfold INT_MIN, INT_MAX; lia).
  split; [exact Hn|]. split; [|reflexivity].
  apply (bubble_sort_bounds ["b"; "a"] 3 Hn). simpl. lia.
Defined.

(** ** The directory check *)

Lemma strrchr_last (a b : string) (c : ascii) :
  cstring a → c ≠ NUL → c ∉ list_ascii_of_string b →
  strrchr (a +:+ String c b) c = Some (String.length a).
Proof.
  intros Ha Hc Hb. induction a as [|x r IH].
  - change (EmptyString +:+ String c b) with (String c b).
    cbn [strrchr String.length].
    rewrite decide_False by done. rewrite strrchr_absent by done.
    by rewrite decide_True.
  - change (String x r +:+ String c b) with (String x (r +:+ String c b)).
    cbn [strrchr String.length].
    apply cstring_String in Ha as [Hx Hr]. rewrite decide_False by done.
    by rewrite IH.
Qed.

Lemma substring_prefix (a b : string) :
  substring 0 (String.length a) (a +:+ b) = a.
Proof.
  induction a as [|x r IH]; simpl; [by destruct b|]. by rewrite IH.
Qed.

(** X18. For an output path with a directory part, the directory check
    takes the text before the last [/] as the directory, stats it, and asks
    for write access only if the stat succeeded and found a directory; it
    returns only if both succeed and otherwise ends in [fatal_error] with
    "Output directory is not writable". *)
Theorem check_output_directory_with_slash (w : world) (dir name : string) :
  cstring dir → ("/"%char ∉ list_ascii_of_string name) →
  check_output_directory w (dir +:+ "/" +:+ name) =
    match stat_dir w dir with
    | Some true =>
        if access_w w dir
        then ([EvStat dir; EvAccess dir], Returns ())
        else ([EvStat dir; EvAccess dir] ++
              fatal_trace w "Output directory is not writable",
              Exits EXIT_FAILURE)
    | _ => ([EvStat dir] ++ fatal_trace w "Output directory is not writable",
            Exits EXIT_FAILURE)
    end.
Proof.
  intros Hdir Hname. unfold check_output_directory.
  change (dir +:+ "/" +:+ name) with (dir +:+ String "/" name).
  rewrite strrchr_last by done. rewrite substring_prefix.
  unfold stat, access. rewrite c_str_id by done. mrun.
  destruct (stat_dir w dir) as [[|]|]; mrun.
  - destruct (access_w w dir); mrun; [done|]. by rewrite fatal_error_run.
  - by rewrite fatal_error_run.
  - by rewrite fatal_error_run.
Qed.

Lemma check_output_directory_with_slash_witness :
  cstring "out" ∧ ("/"%char ∉ list_ascii_of_string "example.com_identities.txt") ∧
  result (check_output_directory (sample_world (λ _, true) [])
            "out/example.com_identities.txt") = Exits EXIT_FAILURE ∧
  trace (check_output_directory (sample_world (λ _, true) [])
           "out/example.com_identities.txt") =
    EvStat "out" ::
    fatal_trace (sample_world (λ _, true) []) "Output directory is not writable".
Proof.
  assert (cstring "out") as Hc by by_computation.
  assert ("/"%char ∉ list_ascii_of_string "example.com_identities.txt") as Hn
    by by_computation.
  split; [exact Hc|]. split; [exact Hn|].
  change "out/example.com_identities.txt"
    with ("out" +:+ "/" +:+ "example.com_identities.txt").
  rewrite (check_output_directory_with_slash (sample_world (λ _, true) [])
             "out" "example.com_identities.txt" Hc Hn).
  split; reflexivity.
Defined.

(** ** The output of a successful run *)

(** X13. When the domain is valid, the query returns and the output file
    opens, the file receives one line for each distinct non-null, non-empty
    value of the returned column (among the first [MAX_IDENTITIES] of them)
    and no other line: the values that start with [*.] first, then the
    others, each group in [strcmp] order; the run ends with status 0. *)
Theorem output_file_contents (w : world) (argv0 d : string)
    (column0 : list (option string)) :
  cstring d → valid_domain d → query_returns w d column0 →
  fopen_ok w (output_path d) "w" = true →
  ∃ wild norm,
    writes_to (File (output_path d)) (trace (main w [argv0; d])) =
      lines (wild ++ norm) ∧
    NoDup (wild ++ norm) ∧
    (∀ x, x ∈ wild ++ norm ↔ x ∈ collect column0) ∧
    Forall (has_prefix "*.") wild ∧
    Forall (λ s, ¬ has_prefix "*." s) norm ∧
    StronglySorted str_le wild ∧ StronglySorted str_le norm ∧
    exit_status (main w [argv0; d]) = Some 0.
Proof.
  intros Hc Hv Hq Hopen.
  pose proof (collect_cstring column0) as Hraw.
  destruct (process_run (collect column0))
    as (wild & norm & Hproc & Hw & Hn & Hsw & Hsn).
  assert (wild ++ norm ≡ₚ uniqueness (collect column0)) as Hall.
  { rewrite Hw, Hn. apply filter_app_complement. }
  assert (Forall cstring (wild ++ norm)) as Hcs.
  { rewrite Hall. by apply uniqueness_cstring. }
  apply Forall_app in Hcs as [Hcw Hcn].
  destruct (main_success_streams w argv0 d column0 wild norm)
    as (Hexit & _ & Hfile & _); [done..|].
  exists wild, norm. split_and!; try done.
  - rewrite Hall. by apply uniqueness_NoDup.
  - intros x. rewrite Hall. by apply uniqueness_elem_of.
  - apply Forall_forall. intros x Hx. rewrite Hw in Hx.
    by apply list_elem_of_filter in Hx as [? _].
  - apply Forall_forall. intros x Hx. rewrite Hn in Hx.
    by apply list_elem_of_filter in Hx as [? _].
Qed.

Lemma output_file_contents_witness :
  let w := sample_world (λ _, true) example_rows in
  cstring "example.com" ∧ valid_domain "example.com" ∧
  query_returns w "example.com" example_rows ∧
  ∃ wild norm,
    writes_to (File (output_path "example.com"))
      (trace (main w ["crt-search"; "example.com"])) = lines (wild ++ norm) ∧
    NoDup (wild ++ norm).
Proof.
  intros w.
  assert (cstring "example.com") as Hc by by_computation.
  assert (valid_domain "example.com") as Hv.
  { split; [simpl; lia|]. intros c Hc'. apply bracket_matches_allowed.
    revert c Hc'. apply Forall_forall. by_computation. }
  assert (query_returns w "example.com" example_rows) as Hq by done.
  split; [exact Hc|]. split; [exact Hv|]. split; [exact Hq|].
  destruct (output_file_contents w "crt-search" "example.com" example_rows
              Hc Hv Hq eq_refl) as (wild & norm & Hfile & Hnodup & _).
  exists wild, norm. split; [exact Hfile|exact Hnodup].
Defined.

(** * Fatal errors *)

(** A run that ends in [fatal_error] after events that write nothing
    reports the message of that call. *)
Lemma reported_intro (w : world) (pre : list event) (msg : string) :
  (∀ f, writes_to f pre = []) →
  reported w msg (pre ++ fatal_trace w msg, Exits EXIT_FAILURE).
Proof.
  intros Hpre. unfold reported. cbn [result trace fst snd].
  split_and!; [done|by exists pre|..]; rewrite writes_to_app, Hpre.
  - apply writes_to_fatal_trace_stderr.
  - apply writes_to_fatal_trace_log.
Qed.

(** Membership in a list that shows the element. *)
Ltac listed :=
  repeat first [apply list_elem_of_here | apply list_elem_of_further].

(** A domain that fails a check of [validate_domain] ends the call in
    [fatal_error], with the message of the first check that fails. *)
Lemma validate_domain_failure (w : world) (d : string) :
  cstring d → ¬ (valid_domain d ∧ regcomp_ok w = true) →
  ∃ msg, msg ∈ validation_errors d ∧
         validate_domain w d = (fatal_trace w msg, Exits EXIT_FAILURE).
Proof.
  intros Hc Hbad.
  destruct (decide (String.length d = 0 ∨ 255 < String.length d)%nat)
    as [Hlen|Hlen].
  { exists "Domain length must be 1-255 characters".
    split; [unfold validation_errors; listed|].
    unfold validate_domain, when. rewrite strlen_cstring by done.
    rewrite (bool_decide_eq_true_2
               (String.length d = 0 ∨ 255 < String.length d)%nat) by done.
    apply fatal_bind. }
  destruct (validation_messages_fit d) as [Hfit1 Hfit2]; [lia|].
  assert (∀ f : () → M Z,
    when (bool_decide (strlen d = 0 ∨ 255 < strlen d)%nat)
      (fatal_error w "Domain length must be 1-255 characters") ≫= f = f ())
    as Hpass.
  { intros f. rewrite strlen_cstring by done.
    rewrite (bool_decide_eq_false_2
               (String.length d = 0 ∨ 255 < String.length d)%nat) by done.
    apply ret_bind. }
  destruct (decide (strpbrk d dangerous ≠ None)) as [Hquote|Hquote].
  { exists ("Domain '" +:+ d +:+
            "' contains invalid characters (quotes, semicolon, backtick)").
    split; [unfold validation_errors; listed|].
    unfold validate_domain. rewrite Hpass. unfold when.
    rewrite (bool_decide_eq_true_2 (strpbrk d dangerous ≠ None)) by done.
    rewrite c_str_id, Hfit1 by done. apply fatal_bind. }
  destruct (regcomp_ok w) eqn:Hre; cycle 1.
  { exists "Regex compilation failed".
    split; [unfold validation_errors; listed|].
    unfold validate_domain. rewrite Hpass. unfold when.
    rewrite (bool_decide_eq_false_2 (strpbrk d dangerous ≠ None)) by done.
    rewrite ret_bind, Hre. cbn [negb]. apply fatal_bind. }
  destruct (decide (regexec_star domain_bracket d ≠ 0)) as [Hchars|Hchars].
  { exists ("Domain '" +:+ d +:+
            "' must contain only alphanumeric, dot or hyphen").
    split; [unfold validation_errors; listed|].
    unfold validate_domain. rewrite Hpass. unfold when.
    rewrite (bool_decide_eq_false_2 (strpbrk d dangerous ≠ None)) by done.
    rewrite ret_bind, Hre. cbn [negb]. rewrite ret_bind.
    rewrite (bool_decide_eq_true_2 (regexec_star domain_bracket d ≠ 0))
      by done.
    rewrite c_str_id, Hfit2 by done. apply fatal_bind. }
  exfalso. apply Hbad. split; [|done]. split; [lia|].
  apply regexec_star_allowed; [done|].
  destruct (decide (regexec_star domain_bracket d = 0)); [done|].
  by destruct Hchars.
Qed.

(** C7, as the program has it. In a run on a domain argument every
    failure of the four kinds is reported: a domain that fails validation
    (with one of the messages of [validate_domain]), a probe or a query
    connection that cannot be made and a query that does not return its
    rows (with the message of the database), an output file that cannot be
    created.  Reported means: the run ends in [fatal_error] on that message,
    the entry [[<time stamp>] ERROR: <message>] is what the standard error
    receives, the log [script_errors.log] receives the same entry when it
    opens for appending and nothing when it does not, and the status is
    [EXIT_FAILURE], which is not 0.  No error is swallowed: a run that does
    not end with status 0 has reported a message.  The time stamp is the
    local time as year-month-day hour:minute:second; for a calendar time of
    the years 1000 to 9999 it reads [YYYY-MM-DD HH:MM:SS]. *)
Theorem fatal_errors_reported (w : world) (argv0 d : string) :
  cstring d →
  (¬ (valid_domain d ∧ regcomp_ok w = true) →
   ∃ msg, msg ∈ validation_errors d ∧ reported w msg (main w [argv0; d])) ∧
  (valid_domain d → regcomp_ok w = true →
   (∀ msg, connect w 0 = CONNECTION_BAD msg →
           reported w msg (main w [argv0; d])) ∧
   (connect w 0 = CONNECTION_OK →
    (∀ msg, connect w 1 = CONNECTION_BAD msg →
            reported w msg (main w [argv0; d])) ∧
    (connect w 1 = CONNECTION_OK →
     (∀ msg, exec_params w sql [d] = PGRES_OTHER msg →
             reported w msg (main w [argv0; d])) ∧
     (∀ column0, exec_params w sql [d] = PGRES_TUPLES_OK column0 →
                 fopen_ok w (output_path d) "w" = false →
                 reported w "Cannot create output file"
                   (main w [argv0; d]))))) ∧
  (exit_status (main w [argv0; d]) ≠ Some 0 →
   ∃ msg, reported w msg (main w [argv0; d])) ∧
  EXIT_FAILURE ≠ 0 ∧
  (∀ msg,
     result (fatal_error w msg : M Z) = Exits EXIT_FAILURE ∧
     writes_to Stderr (trace (fatal_error w msg : M Z)) =
       [error_entry (timestamp w) msg] ∧
     writes_to (File LOG_FILE) (trace (fatal_error w msg : M Z)) =
       if fopen_ok w LOG_FILE "a"
       then [error_entry (timestamp w) msg] else []) ∧
  timestamp w =
    decimal (tm_year (localtime w) + 1900) +:+ "-" +:+
    pad2 (tm_mon (localtime w) + 1) +:+ "-" +:+
    pad2 (tm_mday (localtime w)) +:+ " " +:+
    pad2 (tm_hour (localtime w)) +:+ ":" +:+
    pad2 (tm_min (localtime w)) +:+ ":" +:+
    pad2 (tm_sec (localtime w)) +:+ EmptyString ∧
  (calendar (localtime w) →
     has_shape "dddd-dd-dd dd:dd:dd" (timestamp w) = true ∧
     ∀ msg, error_entry (timestamp w) msg =
              "[" +:+ timestamp w +:+ "] ERROR: " +:+ c_str msg +:+ LF).
Proof.
  intros Hc. split_and!.
  - intros Hbad.
    destruct (validate_domain_failure w d Hc Hbad) as (msg & Hin & Hrun).
    exists msg. split; [done|]. unfold main. rewrite Hrun, bind_exits.
    by apply (reported_intro w []).
  - intros Hv Hre. split.
    { intros msg Hprobe.
      rewrite main_validated, (check_connectivity_bad w msg), bind_exits
        by done.
      by apply (reported_intro w [EvConnect conninfo false]). }
    intros Hprobe. split.
    { intros msg Hconn. rewrite main_validated, check_connectivity_ok by done.
      rewrite bind_returns, (run_query_conn_bad w d msg), bind_exits by done.
      by apply (reported_intro w
                  [EvConnect conninfo true; EvFinish;
                   EvConnect conninfo false]). }
    intros Hconn. split.
    { intros msg Hexec. rewrite main_validated, check_connectivity_ok by done.
      rewrite bind_returns, (run_query_exec_bad w d msg), bind_exits by done.
      by apply (reported_intro w
                  [EvConnect conninfo true; EvFinish;
                   EvConnect conninfo true; EvExecParams sql [d]]). }
    intros column0 Hexec Hopen.
    rewrite (main_write_fails w argv0 d column0) by done.
    rewrite app_assoc.
    by apply (reported_intro w
                (database_events d ++ [EvFopen (output_path d) "w" false])).
  - intros Hstatus. pose proof (main_cases w argv0 d Hc) as Hrun.
    remember (main w [argv0; d]) as run eqn:Heq. clear Heq.
    destruct Hrun as [msg|msg|msg|msg _ _| |wild norm _ _].
    + exists msg. by apply (reported_intro w []).
    + exists msg. by apply reported_intro.
    + exists msg. by apply reported_intro.
    + exists msg. by apply reported_intro.
    + exists "Cannot create output file". rewrite app_assoc.
      by apply reported_intro.
    + by destruct Hstatus.
  - done.
  - intros msg. rewrite fatal_error_run. cbn [trace result fst snd].
    split_and!; [done|apply writes_to_fatal_trace_stderr
                |apply writes_to_fatal_trace_log].
  - apply strftime_stamp.
  - intros Hcal. pose proof (timestamp_shape w Hcal) as Hshape.
    split; [done|]. intros msg. unfold error_entry.
    rewrite (c_str_id (timestamp w)); [done|].
    apply (has_shape_cstring "dddd-dd-dd dd:dd:dd"); [by_computation|done].
Qed.

Lemma fatal_errors_reported_witness :
  let w := {| localtime := mk_tm 126 9 30 7 5 0;
              fopen_ok := λ _ _, true; regcomp_ok := true;
              connect := λ _, CONNECTION_OK;
              exec_params := λ _ _, PGRES_OTHER "statement timeout";
              stat_dir := λ _, None; access_w := λ _, false |} in
  cstring "example.com" ∧ valid_domain "example.com" ∧
  calendar (localtime w) ∧
  reported w "statement timeout" (main w ["crt-search"; "example.com"]) ∧
  timestamp w = "2026-10-30 07:05:00" ∧
  has_shape "dddd-dd-dd dd:dd:dd" (timestamp w) = true.
Proof.
  intros w.
  assert (cstring "example.com") as Hc by by_computation.
  assert (valid_domain "example.com") as Hv.
  { split; [simpl; lia|]. intros c Hc'. apply bracket_matches_allowed.
    revert c Hc'. apply Forall_forall. by_computation. }
  assert (calendar (localtime w)) as Hcal.
  { unfold calendar. simpl. lia. }
  split; [exact Hc|]. split; [exact Hv|]. split; [exact Hcal|].
  destruct (fatal_errors_reported w "crt-search" "example.com" Hc)
    as (_ & Hdb & _ & _ & _ & _ & Hstamp).
  destruct (Hdb Hv eq_refl) as [_ Hquery].
  destruct (Hquery eq_refl) as [_ Hexec].
  destruct (Hexec eq_refl) as [Hfail _].
  split; [exact (Hfail "statement timeout" eq_refl)|].
  split; [reflexivity|]. apply (Hstamp Hcal).
Defined.

(** C7 in the words of the specification does not hold in two places.  When
    the log cannot be opened the run reports the error to the standard
    error only, and nothing is appended to the log.  And the time stamp of
    a local time in the year 10000 has five digits of year. *)
Lemma unlogged_fatal_error :
  (let run :=
     main (sample_world (λ _, false) []) ["crt-search"; "bad;domain"] in
   exit_status run = Some 1 ∧
   trace run =
     [EvWrite Stderr (error_entry "2026-10-30 07:05:00"
        "Domain 'bad;domain' contains invalid characters (quotes, semicolon, backtick)");
      EvFopen "script_errors.log" "a" false] ∧
   writes_to (File LOG_FILE) (trace run) = []) ∧
  (let w := {| localtime := mk_tm 8100 0 1 0 0 0;
               fopen_ok := λ _ _, true; regcomp_ok := true;
               connect := λ _, CONNECTION_OK;
               exec_params := λ _ _, PGRES_TUPLES_OK [];
               stat_dir := λ _, None; access_w := λ _, false |} in
   writes_to (File LOG_FILE)
     (trace (main w ["crt-search"; "bad;domain"])) =
     ["[10000-01-01 00:00:00] ERROR: Domain 'bad;domain' contains invalid characters (quotes, semicolon, backtick)" +:+ LF] ∧
   has_shape "dddd-dd-dd dd:dd:dd" (timestamp w) = false).
Proof. split; split_and!; vm_compute; reflexivity. Qed.
